(** * VISUALGIT: the file-tree-to-graph transformation and the repository
    input parser of the RepoAnalyzer component.

    The development embeds [generateGraphFromTree] and [parseRepoInput]
    (RepoAnalyzer component, [src/unnamed/part_000]) together with the
    records of the types module ([src/unnamed/part_003]) and proves the
    properties the specification states about them.

    Strings are Rocq byte strings.  Every character the code inspects
    (['/'], ['.']) is ASCII, and an ASCII byte never occurs inside the
    encoding of another character, so splitting behaves as it does on
    the code units of a JavaScript string. *)

From Stdlib Require Import Ascii String.
From stdpp Require Import base option list strings pretty gmap fin_maps sorting.

#[local] Set Warnings "-clear-no-such-hyp".

Local Open Scope char_scope.
Local Open Scope stdpp_scope.

(** ** JavaScript primitives used by the component *)

Module JS.

(** [String.prototype.split] with a one-character separator: the tokens
    between the separators, empty tokens included; never the empty
    array. *)
Fixpoint split (sep : ascii) (s : string) : list string :=
  match s with
  | EmptyString => [EmptyString]
  | String c s' =>
      if decide (c = sep) then EmptyString :: split sep s'
      else match split sep s' with
           | tok :: toks => String c tok :: toks
           | [] => [String c EmptyString]
           end
  end.

(** Truthiness of a string: only the empty string is falsy. *)
Definition truthy (s : string) : bool :=
  match s with EmptyString => false | String _ _ => true end.

(** [Array.prototype.includes] on an array of strings. *)
Definition includes (l : list string) (x : string) : bool :=
  bool_decide (x ∈ l).

(** [Array.prototype.pop] read as "the last element, or undefined". *)
Definition pop (l : list string) : option string := last l.

(** [x || ''] for a possibly undefined string [x]. *)
Definition or_empty (x : option string) : string :=
  match x with
  | Some s => if truthy s then s else ""
  | None => ""
  end.

(** [Array.prototype.slice(0, n)]. *)
Definition slice0 {A} (n : nat) (l : list A) : list A := take n l.

(** [Array.prototype.forEach] with a callback that receives the element
    and its index, threading the state the callback mutates; the
    callback may fail. *)
Fixpoint forEach_from {Σ A} (f : Σ → A → nat → option Σ)
    (index : nat) (l : list A) (σ : Σ) : option Σ :=
  match l with
  | [] => Some σ
  | x :: l' => σ' ← f σ x index; forEach_from f (S index) l' σ'
  end.

Definition forEach {Σ A} (f : Σ → A → nat → option Σ)
    (l : list A) (σ : Σ) : option Σ :=
  forEach_from f 0 l σ.

End JS.

(** ** Data model ([types] module) *)

Record D3Node := { id : string; group : Z; label : string }.
Record D3Link := { source : string; target : string; value : Z }.
Record DataFlowGraph := { nodes : list D3Node; links : list D3Link }.
Record RepoFileTree := { path : string; type : string }.

Global Instance D3Node_eq_dec : EqDecision D3Node.
Proof. solve_decision. Defined.
Global Instance D3Link_eq_dec : EqDecision D3Link.
Proof. solve_decision. Defined.

(** ** [generateGraphFromTree] *)

(** The variables of one invocation: the two arrays, the prefix lookup
    and the id counter. *)
Record Builder := {
  b_nodes : list D3Node;
  b_links : list D3Link;
  pathMap : gmap string string;
  nodeIdCounter : nat
}.

(** The variables of the outer callback, one pair per file. *)
Record Cursor := { currentPath : string; parentId : string }.

(** [`node_${n}`].  The counter is a natural number: it counts created
    nodes, and stays far below the range where a JavaScript number stops
    being an exact integer printed in plain decimal. *)
Definition node_id (n : nat) : string := "node_" +:+ pretty n.

(** Lines 188-196: the group of a freshly created node. *)
Definition group_of (isLast : bool) (part : string) : Z :=
  let group := 1%Z in
  if isLast then
    let ext := JS.pop (JS.split "." part) in
    let group :=
      if JS.includes ["ts"; "tsx"; "js"; "jsx"] (JS.or_empty ext)
      then 2%Z else group in
    let group :=
      if JS.includes ["css"; "scss"; "html"] (JS.or_empty ext)
      then 3%Z else group in
    let group :=
      if JS.includes ["json"; "yml"; "config"] (JS.or_empty ext)
      then 4%Z else group in
    group
  else 5%Z.

(** Line 181. *)
Definition extend (currentPath part : string) : string :=
  if JS.truthy currentPath then currentPath +:+ "/" +:+ part else part.

(** Lines 183-200: the body of [if (!pathMap.has(currentPath))]. *)
Definition register (b : Builder) (parent cur part : string)
    (isLast : bool) : Builder :=
  let id := node_id (nodeIdCounter b) in
  {| b_nodes := b_nodes b ++ [{| id := id; label := part;
                                 group := group_of isLast part |}];
     b_links := b_links b ++ [{| source := parent; target := id;
                                 value := 1 |}];
     pathMap := <[cur := id]> (pathMap b);
     nodeIdCounter := S (nodeIdCounter b) |}.

(** Lines 179-202: the inner callback.  [len] is [parts.length].  The
    non-null assertion of line 201 is the one place where the callback
    can go wrong: it is modelled as failure. *)
Definition visit_part (len : nat) (σ : Builder * Cursor) (part : string)
    (index : nat) : option (Builder * Cursor) :=
  let '(b, c) := σ in
  let isLast := bool_decide (index = len - 1) in
  let cur := extend (currentPath c) part in
  let b' :=
    if negb (bool_decide (is_Some (pathMap b !! cur)))
    then register b (parentId c) cur part isLast
    else b in
  pid ← pathMap b' !! cur;
  Some (b', {| currentPath := cur; parentId := pid |}).

(** Lines 174-203: the outer callback. *)
Definition visit_file (b : Builder) (file : RepoFileTree) (_ : nat)
    : option Builder :=
  let parts := JS.split "/" (path file) in
  σ ← JS.forEach (visit_part (length parts)) parts
        (b, {| currentPath := ""; parentId := "root" |});
  Some σ.1.

(** Lines 165-170. *)
Definition initial : Builder :=
  {| b_nodes := [{| id := "root"; group := 0; label := "root" |}];
     b_links := [];
     pathMap := <["" := "root"]> ∅;
     nodeIdCounter := 1 |}.

(** The state of the invocation when the outer loop has ended. *)
Definition build (tree : list RepoFileTree) : option Builder :=
  let limitedTree := JS.slice0 100 tree in
  JS.forEach visit_file limitedTree initial.

Definition generateGraphFromTree (tree : list RepoFileTree)
    : option DataFlowGraph :=
  b ← build tree;
  Some {| nodes := b_nodes b; links := b_links b |}.

(** An entry with the given path; [type] is not read by the function. *)
Definition file (p : string) : RepoFileTree := {| path := p; type := "blob" |}.

(** Number of occurrences of a character in a string. *)
Fixpoint count_sep (sep : ascii) (s : string) : nat :=
  match s with
  | EmptyString => 0
  | String c s' => (if decide (c = sep) then 1 else 0) + count_sep sep s'
  end.

(** ** Cumulative prefixes and their first-seen order *)

(** The values [currentPath] takes while the segments [parts] are walked,
    starting from [cur]. *)
Fixpoint prefixes_from (cur : string) (parts : list string) : list string :=
  match parts with
  | [] => []
  | part :: rest => extend cur part :: prefixes_from (extend cur part) rest
  end.

Definition entry_prefixes (f : RepoFileTree) : list string :=
  prefixes_from "" (JS.split "/" (path f)).

Definition all_prefixes (tree : list RepoFileTree) : list string :=
  concat (entry_prefixes <$> tree).

(** The distinct non-empty elements of a list, each at the position of its
    first occurrence. *)
Definition seen_add (ps : list string) (p : string) : list string :=
  if decide (p ∈ "" :: ps) then ps else ps ++ [p].

Definition first_seen (l : list string) : list string := foldl seen_add [] l.

(** The id of the [k]-th node created, the root being the 0-th. *)
Definition nid (k : nat) : string :=
  match k with 0 => "root" | S _ => node_id k end.

Definition root_node : D3Node := {| id := "root"; group := 0; label := "root" |}.

(** The invariant of the two loops.  [ps] lists the prefixes registered
    so far, oldest first. *)
Record wf (b : Builder) (ps : list string) : Prop := {
  wf_nodup : NoDup ("" :: ps);
  wf_counter : nodeIdCounter b = S (length ps);
  wf_lookup : ∀ p v, pathMap b !! p = Some v ↔
                ∃ i, ("" :: ps) !! i = Some p ∧ v = nid i;
  wf_ids : id <$> b_nodes b = nid <$> seq 0 (S (length ps));
  wf_root : head (b_nodes b) = Some root_node;
  wf_targets : target <$> b_links b = nid <$> seq 1 (length ps);
  wf_sources : ∀ i e, b_links b !! i = Some e → ∃ j, j ≤ i ∧ source e = nid j
}.

(** The edge relation of a graph, on node ids. *)
Definition edge (g : DataFlowGraph) (a b : string) : Prop :=
  ∃ e, e ∈ links g ∧ source e = a ∧ target e = b.

Definition incoming (g : DataFlowGraph) (i : string) : list D3Link :=
  filter (λ e, target e = i) (links g).

Definition graph_of (b : Builder) : DataFlowGraph :=
  {| nodes := b_nodes b; links := b_links b |}.

(** What it means for the output to be a tree rooted at ["root"]. *)
Record rooted_tree (g : DataFlowGraph) : Prop := {
  rt_ids_distinct : NoDup (id <$> nodes g);
  rt_endpoints : ∀ e, e ∈ links g →
      source e ∈ id <$> nodes g ∧ target e ∈ id <$> nodes g;
  rt_one_parent : ∀ n, n ∈ nodes g → id n ≠ "root" →
      length (incoming g (id n)) = 1;
  rt_reachable : ∀ n, n ∈ nodes g → rtc (edge g) "root" (id n);
  rt_acyclic : ∀ a, ¬ tc (edge g) a a
}.

(** The arrays of [b'] extend those of [b]. *)
Definition grows (b b' : Builder) : Prop :=
  b_nodes b `prefix_of` b_nodes b' ∧ b_links b `prefix_of` b_links b'.

Definition grows_cur (σ σ' : Builder * Cursor) : Prop := grows σ.1 σ'.1.

(** Two entries are visited alike when, from any state the loops can
    reach, visiting either leaves the same state. *)
Definition same_visit (f g : RepoFileTree) : Prop :=
  ∀ b ps i j, wf b ps → visit_file b f i = visit_file b g j.

(** ** [parseRepoInput] *)

(** The two fields of a [URL] object that the function reads. *)
Record URL := { hostname : string; pathname : string }.

Record RepoDetails := { owner : string; repo : string }.

(** [s.replace(/\/$/, '')]: the pattern matches a ['/'] that ends the
    string, so the call removes that one character when it is there. *)
Fixpoint strip_trailing_slash (s : string) : string :=
  match s with
  | EmptyString => EmptyString
  | String c s' =>
      match s' with
      | EmptyString => if decide (c = "/"%char) then EmptyString else s
      | String _ _ => String c (strip_trailing_slash s')
      end
  end.

Fixpoint last_char (s : string) : option ascii :=
  match s with
  | EmptyString => None
  | String c s' =>
      match s' with
      | EmptyString => Some c
      | String _ _ => last_char s'
      end
  end.

Section ParseRepoInput.

(** The platform's [URL] constructor and [String.prototype.trim] are not
    code of the repository; the function is modelled over any
    implementation of them.  [URL_new s = None] stands for the
    constructor throwing. *)
Variable URL_new : string → option URL.
Variable trim : string → string.

(** Lines 67-73: the [try] block; [None] when it falls through. *)
Definition parse_url (cleanInput : string) : option RepoDetails :=
  match URL_new cleanInput with
  | Some url =>
      if decide (hostname url = "github.com") then
        let parts :=
          filter (λ s, JS.truthy s) (JS.split "/" (pathname url)) in
        if decide (2 ≤ length parts) then
          o ← parts !! 0; r ← parts !! 1;
          Some {| owner := o; repo := r |}
        else None
      else None
  | None => None
  end.

(** Lines 74-76. *)
Definition parse_bare (cleanInput : string) : option RepoDetails :=
  let parts := JS.split "/" cleanInput in
  if decide (length parts = 2) then
    o ← parts !! 0; r ← parts !! 1;
    if JS.truthy o && JS.truthy r
    then Some {| owner := o; repo := r |} else None
  else None.

Definition parseRepoInput (input : string) : option RepoDetails :=
  let cleanInput := strip_trailing_slash (trim input) in
  match parse_url cleanInput with
  | Some d => Some d
  | None => parse_bare cleanInput
  end.

(** The input is a github.com URL whose path has the segments
    [owner d], [repo d] and possibly more. *)
Definition github_url (clean : string) (d : RepoDetails) : Prop :=
  ∃ url rest,
    URL_new clean = Some url ∧ hostname url = "github.com" ∧
    filter (λ s, s ≠ "") (JS.split "/" (pathname url))
    = owner d :: repo d :: rest.

End ParseRepoInput.

(** The input is [owner/repo] with both parts non-empty and one ['/']. *)
Definition bare_token (clean : string) (d : RepoDetails) : Prop :=
  clean = owner d +:+ String "/" (repo d) ∧ owner d ≠ "" ∧ repo d ≠ "" ∧
  count_sep "/" (owner d) = 0 ∧ count_sep "/" (repo d) = 0.

(** * Definitions for the further properties *)

(** ** What every registered prefix stands for *)

(** The [i]-th registered prefix [p] extends an earlier registered prefix
    [q] (or the empty one) by one ['/']-free segment; the [i]-th created
    node carries that segment as its label, and the [i]-th edge comes
    from the node of [q] with weight 1. *)
Definition described (b : Builder) (ps : list string) : Prop :=
  ∀ i p, ps !! i = Some p →
    ∃ q part isLast j,
      p = extend q part ∧ count_sep "/" part = 0 ∧
      ("" :: ps) !! j = Some q ∧ j ≤ i ∧
      b_nodes b !! S i = Some {| id := node_id (S i);
                                 group := group_of isLast part;
                                 label := part |} ∧
      b_links b !! i = Some {| source := nid j; target := node_id (S i);
                               value := 1 |}.

(** The number of segments of the entries of a list. *)
Definition segment_count (tree : list RepoFileTree) : nat :=
  sum_list ((λ f, S (count_sep "/" (path f))) <$> tree).

Definition has_child (b : Builder) (v : string) : Prop :=
  ∃ e, e ∈ b_links b ∧ source e = v.

(** Every node of group 5 has an outgoing edge, the node [pending] (the
    folder whose first child the inner loop is about to create)
    excepted. *)
Definition folders_filled (b : Builder) (pending : option string) : Prop :=
  ∀ n, n ∈ b_nodes b → group n = 5%Z →
       has_child b (id n) ∨ pending = Some (id n).

(** * The RepoAnalyzer component and its wiring in [App] *)

(** ** Values thrown and results of the services *)

(** A thrown value, as far as the handlers look at it: its [message]. *)
Record JSError := { message : option string }.

(** [new Error(msg)]. *)
Definition Error (msg : string) : JSError := {| message := Some msg |}.

(** The outcome of awaiting a service: a value, or a thrown value. *)
Inductive Result (A : Type) : Type :=
| Ok (a : A)
| Throw (e : JSError).
Global Arguments Ok {A} a.
Global Arguments Throw {A} e.

(** Truthiness of a possibly-null string. *)
Definition truthy_opt (x : option string) : bool :=
  match x with Some s => JS.truthy s | None => false end.

(** [String.prototype.includes]. *)
Fixpoint starts_with (p s : string) : bool :=
  match p, s with
  | EmptyString, _ => true
  | String _ _, EmptyString => false
  | String a p', String b s' =>
      if decide (a = b) then starts_with p' s' else false
  end.

Fixpoint string_includes (s needle : string) : bool :=
  starts_with needle s ||
  match s with
  | EmptyString => false
  | String _ s' => string_includes s' needle
  end.

(** ** Types of the [types] module used by the component *)

Inductive ViewMode := HOME | REPO_ANALYZER | DEV_STUDIO | CODE_XRAY.

Global Instance ViewMode_eq_dec : EqDecision ViewMode.
Proof. solve_decision. Defined.

Record DevStudioState := {
  repoName : string;
  fileTree : list RepoFileTree;
  graphData : DataFlowGraph
}.

Section Component.

(** The type of [Date] objects; the component only stores them. *)
Variable Date : Type.

Record RepoHistoryItem := {
  item_id : string;
  item_repoName : string;
  imageData : string;
  is3D : bool;
  style : string;
  date : Date
}.

(** ** State of the two components *)

(** The [useState] cells of [RepoAnalyzer] that its handlers read or
    write ([fullScreenImage] is touched by the markup only). *)
Record AnalyzerState := {
  repoInput : string;
  selectedStyle : string;
  selectedLanguage : string;
  customStyle : string;
  loading : bool;
  error : option string;
  loadingStage : string;
  infographicData : option string;
  infographic3DData : option string;
  generating3D : bool;
  currentFileTree : option (list RepoFileTree);
  currentRepoName : string
}.

(** The [useState] cells of [App]. *)
Record AppState := {
  currentView : ViewMode;
  hasApiKey : bool;
  checkingKey : bool;
  repoHistory : list RepoHistoryItem;
  devStudioData : option DevStudioState
}.

(** What a handler does besides setting state: calls of the callbacks it
    got as props, and calls on [window] and on the DOM event. *)
Inductive Effect :=
| PreventDefault
| AddToHistory (item : RepoHistoryItem)
| Navigate (mode : ViewMode) (data : option DevStudioState)
| Reload
| ScrollToTop.

(** The setters. *)
Definition setLoading (v : bool) (st : AnalyzerState) : AnalyzerState :=
  {| repoInput := repoInput st; selectedStyle := selectedStyle st;
     selectedLanguage := selectedLanguage st; customStyle := customStyle st;
     loading := v; error := error st; loadingStage := loadingStage st;
     infographicData := infographicData st;
     infographic3DData := infographic3DData st;
     generating3D := generating3D st;
     currentFileTree := currentFileTree st;
     currentRepoName := currentRepoName st |}.

Definition setError (v : option string) (st : AnalyzerState) : AnalyzerState :=
  {| repoInput := repoInput st; selectedStyle := selectedStyle st;
     selectedLanguage := selectedLanguage st; customStyle := customStyle st;
     loading := loading st; error := v; loadingStage := loadingStage st;
     infographicData := infographicData st;
     infographic3DData := infographic3DData st;
     generating3D := generating3D st;
     currentFileTree := currentFileTree st;
     currentRepoName := currentRepoName st |}.

Definition setLoadingStage (v : string) (st : AnalyzerState) : AnalyzerState :=
  {| repoInput := repoInput st; selectedStyle := selectedStyle st;
     selectedLanguage := selectedLanguage st; customStyle := customStyle st;
     loading := loading st; error := error st; loadingStage := v;
     infographicData := infographicData st;
     infographic3DData := infographic3DData st;
     generating3D := generating3D st;
     currentFileTree := currentFileTree st;
     currentRepoName := currentRepoName st |}.

Definition setInfographicData (v : option string) (st : AnalyzerState)
    : AnalyzerState :=
  {| repoInput := repoInput st; selectedStyle := selectedStyle st;
     selectedLanguage := selectedLanguage st; customStyle := customStyle st;
     loading := loading st; error := error st; loadingStage := loadingStage st;
     infographicData := v;
     infographic3DData := infographic3DData st;
     generating3D := generating3D st;
     currentFileTree := currentFileTree st;
     currentRepoName := currentRepoName st |}.

Definition setInfographic3DData (v : option string) (st : AnalyzerState)
    : AnalyzerState :=
  {| repoInput := repoInput st; selectedStyle := selectedStyle st;
     selectedLanguage := selectedLanguage st; customStyle := customStyle st;
     loading := loading st; error := error st; loadingStage := loadingStage st;
     infographicData := infographicData st;
     infographic3DData := v;
     generating3D := generating3D st;
     currentFileTree := currentFileTree st;
     currentRepoName := currentRepoName st |}.

Definition setGenerating3D (v : bool) (st : AnalyzerState) : AnalyzerState :=
  {| repoInput := repoInput st; selectedStyle := selectedStyle st;
     selectedLanguage := selectedLanguage st; customStyle := customStyle st;
     loading := loading st; error := error st; loadingStage := loadingStage st;
     infographicData := infographicData st;
     infographic3DData := infographic3DData st;
     generating3D := v;
     currentFileTree := currentFileTree st;
     currentRepoName := currentRepoName st |}.

Definition setCurrentFileTree (v : option (list RepoFileTree))
    (st : AnalyzerState) : AnalyzerState :=
  {| repoInput := repoInput st; selectedStyle := selectedStyle st;
     selectedLanguage := selectedLanguage st; customStyle := customStyle st;
     loading := loading st; error := error st; loadingStage := loadingStage st;
     infographicData := infographicData st;
     infographic3DData := infographic3DData st;
     generating3D := generating3D st;
     currentFileTree := v;
     currentRepoName := currentRepoName st |}.

Definition setCurrentRepoName (v : string) (st : AnalyzerState) : AnalyzerState :=
  {| repoInput := repoInput st; selectedStyle := selectedStyle st;
     selectedLanguage := selectedLanguage st; customStyle := customStyle st;
     loading := loading st; error := error st; loadingStage := loadingStage st;
     infographicData := infographicData st;
     infographic3DData := infographic3DData st;
     generating3D := generating3D st;
     currentFileTree := currentFileTree st;
     currentRepoName := v |}.

(** ** The world around the component *)

(** The platform's [URL] constructor and [trim], the two imported
    services, [window.confirm], and the clock read by [addToHistory]
    ([Date.now().toString()] and [new Date()]). *)
Variable URL_new : string → option URL.
Variable trim : string → string.
Variable fetchRepoFileTree : string → string → Result (list RepoFileTree).
Variable generateInfographic :
  string → list RepoFileTree → string → bool → string → Result (option string).
Variable confirm : string → bool.
Variable date_now : string.
Variable new_date : Date.

(** ** The handlers of [RepoAnalyzer] *)

(** Lines 79-89. *)
Definition addToHistory (repoName imageData : string) (is3D : bool)
    (style : string) : list Effect :=
  let newItem := {| item_id := date_now; item_repoName := repoName;
                    imageData := imageData; is3D := is3D; style := style;
                    date := new_date |} in
  [AddToHistory newItem].

Definition billing_notice : string :=
  "BILLING REQUIRED: The current API key does not have access to these models."
  +:+ String "010" (String "010"
  "This feature requires a paid Google Cloud Project. Please switch to a valid paid API Key.").

(** Lines 91-102. *)
Definition handleApiError (err : JSError) (st : AnalyzerState)
    : AnalyzerState * list Effect :=
  let effects :=
    if truthy_opt (message err) &&
       string_includes (default "" (message err))
         "Requested entity was not found"
    then
      let confirmSwitch := confirm billing_notice in
      if confirmSwitch then [Reload] else []
    else [] in
  (setError
     (Some (if truthy_opt (message err) then default "" (message err)
            else "An unexpected error occurred during analysis.")) st,
   effects).

Definition invalid_format : string :=
  "Invalid format. Use " +:+ String "034" ("owner/repo" +:+ String "034"
  " or a full GitHub URL.").

(** [selectedStyle === 'Custom' ? customStyle : selectedStyle]. *)
Definition styleToUse (st : AnalyzerState) : string :=
  if decide (selectedStyle st = "Custom") then customStyle st
  else selectedStyle st.

(** Lines 119-140: the [try] block with its [catch]. *)
Definition analyze (repoDetails : RepoDetails) (st : AnalyzerState)
    : AnalyzerState * list Effect :=
  let st := setLoadingStage "CONNECTING TO GITHUB" st in
  match fetchRepoFileTree (owner repoDetails) (repo repoDetails) with
  | Throw err => handleApiError err st
  | Ok fileTree =>
      if decide (length fileTree = 0)
      then handleApiError
             (Error "No relevant code files found in this repository.") st
      else
        let st := setCurrentFileTree (Some fileTree) st in
        let st := setLoadingStage "ANALYZING STRUCTURE & GENERATING" st in
        match generateInfographic (repo repoDetails) fileTree (styleToUse st)
                false (selectedLanguage st) with
        | Throw err => handleApiError err st
        | Ok infographicBase64 =>
            if truthy_opt infographicBase64 then
              (setInfographicData infographicBase64 st,
               addToHistory (repo repoDetails)
                 (default "" infographicBase64) false (styleToUse st))
            else handleApiError (Error "Failed to generate visual.") st
        end
  end.

(** Lines 104-145. *)
Definition handleAnalyze (st : AnalyzerState) : AnalyzerState * list Effect :=
  let input := repoInput st in
  let st := setError None st in
  let st := setInfographicData None st in
  let st := setInfographic3DData None st in
  let st := setCurrentFileTree None st in
  match parseRepoInput URL_new trim input with
  | None => (setError (Some invalid_format) st, [PreventDefault])
  | Some repoDetails =>
      let st := setLoading true st in
      let st := setCurrentRepoName (repo repoDetails) st in
      let '(st, effects) := analyze repoDetails st in
      (setLoadingStage "" (setLoading false st), PreventDefault :: effects)
  end.

(** Lines 147-162. *)
Definition handleGenerate3D (st : AnalyzerState)
    : AnalyzerState * list Effect :=
  match currentFileTree st with
  | None => (st, [])
  | Some tree =>
      if negb (JS.truthy (currentRepoName st)) then (st, [])
      else
        let st1 := setGenerating3D true st in
        let '(st2, effects) :=
          match generateInfographic (currentRepoName st) tree (styleToUse st)
                  true (selectedLanguage st) with
          | Throw err => handleApiError err st1
          | Ok data =>
              if truthy_opt data then
                (setInfographic3DData data st1,
                 addToHistory (currentRepoName st) (default "" data) true
                   (styleToUse st))
              else (st1, [])
          end in
        (setGenerating3D false st2, effects)
  end.

(** Lines 208-216.  [None] stands for [generateGraphFromTree] going
    wrong. *)
Definition launchDevStudio (st : AnalyzerState) : option (list Effect) :=
  match currentFileTree st with
  | None => Some []
  | Some tree =>
      if negb (JS.truthy (currentRepoName st)) then Some []
      else
        graphData ← generateGraphFromTree tree;
        Some [Navigate DEV_STUDIO
                (Some {| repoName := currentRepoName st; fileTree := tree;
                         graphData := graphData |})]
  end.

(** Lines 218-230. *)
Definition loadFromHistory (item : RepoHistoryItem) (st : AnalyzerState)
    : AnalyzerState * list Effect :=
  let st := setCurrentRepoName (item_repoName item) st in
  let st :=
    if is3D item then setInfographic3DData (Some (imageData item)) st
    else setInfographic3DData None
           (setInfographicData (Some (imageData item)) st) in
  (setCurrentFileTree None st, [ScrollToTop]).

(** ** The handlers of [App] ([App.tsx], lines 39-48) *)

Definition handleNavigate (mode : ViewMode) (data : option DevStudioState)
    (app : AppState) : AppState :=
  let devStudioData' :=
    match data with
    | Some d => if decide (mode = DEV_STUDIO) then Some d
                else devStudioData app
    | None => devStudioData app
    end in
  {| currentView := mode; hasApiKey := hasApiKey app;
     checkingKey := checkingKey app; repoHistory := repoHistory app;
     devStudioData := devStudioData' |}.

Definition handleAddRepoHistory (item : RepoHistoryItem) (app : AppState)
    : AppState :=
  {| currentView := currentView app; hasApiKey := hasApiKey app;
     checkingKey := checkingKey app; repoHistory := item :: repoHistory app;
     devStudioData := devStudioData app |}.

(** [App] passes [handleNavigate] and [handleAddRepoHistory] to
    [RepoAnalyzer] as [onNavigate] and [onAddToHistory]: this is how the
    effects of a handler reach the state of [App]. *)
Definition app_effect (app : AppState) (e : Effect) : AppState :=
  match e with
  | AddToHistory item => handleAddRepoHistory item app
  | Navigate mode data => handleNavigate mode data app
  | PreventDefault | Reload | ScrollToTop => app
  end.

Definition app_effects (effects : list Effect) (app : AppState) : AppState :=
  foldl app_effect app effects.


End Component.

(** * The tech-stack statistics of [RepoAnalyzer] (lines 233-260) *)

(** The own keys of [extensionMap]. *)
Definition extensionMap_own : list (string * string) :=
  [("ts", "TypeScript"); ("tsx", "TypeScript"); ("js", "JavaScript");
   ("jsx", "JavaScript"); ("css", "CSS"); ("scss", "Sass"); ("html", "HTML");
   ("json", "JSON"); ("yml", "YAML"); ("yaml", "YAML");
   ("py", "Python"); ("go", "Go"); ("rs", "Rust"); ("java", "Java");
   ("c", "C"); ("cpp", "C++"); ("cs", "C#"); ("php", "PHP"); ("rb", "Ruby")].

(** Lookup in an array of pairs: the value of the first pair with the
    key. *)
Fixpoint assoc {A} (k : string) (l : list (string * A)) : option A :=
  match l with
  | [] => None
  | (k', v) :: l' => if decide (k' = k) then Some v else assoc k l'
  end.

(** [stats[lang] = (stats[lang] || 0) + 1] on an object whose keys are
    kept in insertion order. *)
Fixpoint bump (lang : string) (stats : list (string * nat))
    : list (string * nat) :=
  match stats with
  | [] => [(lang, 1)]
  | (l, n) :: rest =>
      if decide (l = lang) then (l, n + 1) :: rest
      else (l, n) :: bump lang rest
  end.

Section TechStack.

(** [String.prototype.toLowerCase], the text the engine prints for the
    built-in [Object] constructor (a native-function source text), and
    the type of JavaScript numbers with the computation
    [(count / total) * 100] on two counters. *)
Variable toLowerCase : string → string.
Variable Object_source : string.
Variable F : Type.
Variable percent_of : nat → nat → F.

Record LangStat := { lang : string; count : nat; percent : F }.

(** [extensionMap[ext]], read as the key under which the file is
    counted; [None] when the value is undefined.  An object literal
    inherits from [Object.prototype].  [ext] comes out of [toLowerCase],
    so it holds no upper-case letter, and the only property names of
    [Object.prototype] without one are [constructor] and [__proto__]:
    for these the lookup yields the [Object] constructor and
    [Object.prototype], which as keys of [stats] read as [Object_source]
    and ["[object Object]"]. *)
Definition extensionMap_get (ext : string) : option string :=
  match assoc ext extensionMap_own with
  | Some l => Some l
  | None =>
      if decide (ext = "constructor") then Some Object_source
      else if decide (ext = "__proto__") then Some "[object Object]"
      else None
  end.

(** Lines 248-250: the language a file is counted under, if any. *)
Definition lang_of (file : RepoFileTree) : option string :=
  let ext := toLowerCase <$> JS.pop (JS.split "." (path file)) in
  if truthy_opt ext then extensionMap_get (default "" ext) else None.

(** Lines 247-254: one round of the loop on [stats] and [total]. *)
Definition tally_file (acc : list (string * nat) * nat) (file : RepoFileTree)
    : list (string * nat) * nat :=
  match lang_of file with
  | Some lang => (bump lang acc.1, S acc.2)
  | None => acc
  end.

Definition tally (tree : list RepoFileTree) : list (string * nat) * nat :=
  foldl tally_file ([], 0) tree.

(** [Array.prototype.sort] with the comparator [b.count - a.count]: the
    sort is stable, so its result is the one of any stable sort by
    descending count; here insertion from the right, an element going
    before the first one that does not beat it. *)
Fixpoint insert_desc (x : LangStat) (l : list LangStat) : list LangStat :=
  match l with
  | [] => [x]
  | y :: l' =>
      if decide (count y ≤ count x) then x :: y :: l'
      else y :: insert_desc x l'
  end.

Definition sort_desc (l : list LangStat) : list LangStat :=
  foldr insert_desc [] l.

Definition techStackStats (currentFileTree : option (list RepoFileTree))
    : list LangStat :=
  match currentFileTree with
  | None => []
  | Some tree =>
      let '(stats, total) := tally tree in
      take 5 (sort_desc
                ((λ '(lang, count),
                    {| lang := lang; count := count;
                       percent := percent_of count total |}) <$> stats))
  end.

(** Number of files counted under a language. *)
Definition files_of (tree : list RepoFileTree) (l : string) : nat :=
  length (filter (λ f, lang_of f = Some l) tree).

(** The descending order of the comparator. *)
Definition beats (a b : LangStat) : Prop := count b ≤ count a.

(** The entry built from a pair of [stats]. *)
Definition entry_of (total : nat) (p : string * nat) : LangStat :=
  {| lang := p.1; count := p.2; percent := percent_of p.2 total |}.

End TechStack.

(** * Reading the answer of the model ([services/geminiService.ts]) *)

Module Gemini.

(** The fields of a [GenerateContentResponse] that the service reads.
    A missing field is [None]. *)
Record InlineData := { data : option string }.
Record Part := { inlineData : option InlineData; text : option string }.
Record Content := { parts : option (list Part) }.
Record Web := { uri : option string; title : option string }.
Record GroundingChunk := { web : option Web }.
Record GroundingMetadata := {
  groundingChunks : option (list GroundingChunk)
}.
Record Candidate := {
  content : option Content;
  groundingMetadata : option GroundingMetadata
}.
Record Response := { candidates : option (list Candidate) }.

Record Citation := { cite_uri : option string; cite_title : option string }.

Record ArticleResult := {
  imageData : option string;
  citations : list Citation;
  summary : string
}.

(** [part.inlineData && part.inlineData.data]: the data when the test
    passes. *)
Definition part_image (p : Part) : option string :=
  match inlineData p with
  | Some i => if truthy_opt (data i) then data i else None
  | None => None
  end.

(** Lines 95-99: the loop that returns at the first image. *)
Fixpoint first_image (ps : list Part) : option string :=
  match ps with
  | [] => None
  | p :: ps' =>
      match part_image p with
      | Some d => Some d
      | None => first_image ps'
      end
  end.

(** [response.candidates?.[0]?.content?.parts]. *)
Definition response_parts (r : Response) : option (list Part) :=
  cs ← candidates r; c ← head cs; ct ← content c; parts ct.

(** Lines 93-101 of [generateInfographic] (and again in
    [editImageWithGemini] and [generateCodeBlueprint]): what the function
    returns once the model has answered. *)
Definition inline_image (r : Response) : option string :=
  match response_parts r with
  | Some ps => first_image ps
  | None => None
  end.

(** Lines 153-159 of [generateArticleInfographic]: one round on
    [imageData] and [summary]. *)
Definition article_part (acc : option string * string) (p : Part)
    : option string * string :=
  match part_image p with
  | Some d => (Some d, acc.2)
  | None =>
      if truthy_opt (text p) then (acc.1, acc.2 +:+ default "" (text p))
      else acc
  end.

(** Lines 164-168: one round on [citations]. *)
Definition article_chunk (cites : list Citation) (chunk : GroundingChunk)
    : list Citation :=
  match web chunk with
  | Some w => cites ++ [{| cite_uri := uri w; cite_title := title w |}]
  | None => cites
  end.

(** Lines 145-172. *)
Definition article_result (r : Response) : ArticleResult :=
  match candidates r with
  | Some (c :: _) =>
      let '(imageData, summary) :=
        match content c with
        | Some ct =>
            match parts ct with
            | Some ps => foldl article_part (None, "") ps
            | None => (None, "")
            end
        | None => (None, "")
        end in
      let citations :=
        match groundingMetadata c ≫= groundingChunks with
        | Some chunks => foldl article_chunk [] chunks
        | None => []
        end in
      {| imageData := imageData; citations := citations; summary := summary |}
  | _ => {| imageData := None; citations := []; summary := "" |}
  end.

(** The text a part adds to the summary. *)
Definition part_text (p : Part) : option string :=
  match part_image p with
  | Some _ => None
  | None => if truthy_opt (text p) then text p else None
  end.

Definition chunk_citation (chunk : GroundingChunk) : option Citation :=
  w ← web chunk; Some {| cite_uri := uri w; cite_title := title w |}.

Fixpoint concat_strings (l : list string) : string :=
  match l with
  | [] => ""
  | s :: l' => s +:+ concat_strings l'
  end.

End Gemini.

(** ** Basic facts *)

Lemma split_nonempty sep s : JS.split sep s ≠ [].
Proof.
  destruct s as [|c s]; simpl; [done|].
  destruct (decide (c = sep)); [done|].
  destruct (JS.split sep s); done.
Qed.

Global Instance node_id_inj : Inj (=) (=) node_id.
Proof.
  intros x y H. unfold node_id in H.
  apply (inj (String.app "node_")) in H. by apply (inj pretty) in H.
Qed.

Lemma node_id_not_root n : node_id n ≠ "root".
Proof. unfold node_id. cbv beta iota fix delta [String.append]. discriminate. Qed.

Global Instance nid_inj : Inj (=) (=) nid.
Proof.
  intros [|x] [|y] H; unfold nid in H; try done.
  by apply node_id_inj in H.
Qed.

Lemma nid_root k : nid k = "root" ↔ k = 0.
Proof.
  split; [|by intros ->].
  by destruct k.
Qed.

Lemma wf_initial : wf initial [].
Proof.
  split; simpl.
  - apply NoDup_singleton.
  - done.
  - intros p v. rewrite lookup_insert. case_decide as Hp.
    + subst p. split.
      * intros [= <-]. by exists 0.
      * intros ([|i] & Hi & ->); simplify_eq/=; done.
    + rewrite lookup_empty. split; [done|].
      intros ([|i] & Hi & ->); simplify_eq/=.
  - done.
  - done.
  - done.
  - intros i e Hi. by rewrite lookup_nil in Hi.
Qed.

(** ** The invariant is kept by the loops *)

Lemma wf_links_length b ps : wf b ps → length (b_links b) = length ps.
Proof.
  intros Hwf. rewrite <-(length_fmap target), (wf_targets _ _ Hwf).
  by rewrite length_fmap, length_seq.
Qed.

Lemma wf_nodes_length b ps : wf b ps → length (b_nodes b) = S (length ps).
Proof.
  intros Hwf. rewrite <-(length_fmap id), (wf_ids _ _ Hwf).
  by rewrite length_fmap, length_seq.
Qed.

Lemma wf_lookup_root b ps : wf b ps → pathMap b !! "" = Some "root".
Proof. intros Hwf. apply (wf_lookup _ _ Hwf). by exists 0. Qed.

Lemma wf_lookup_mem b ps p :
  wf b ps → is_Some (pathMap b !! p) ↔ p ∈ "" :: ps.
Proof.
  intros Hwf. rewrite list_elem_of_lookup. split.
  - intros [v Hv]. apply (wf_lookup _ _ Hwf) in Hv as (i & Hi & _). eauto.
  - intros [i Hi]. exists (nid i). apply (wf_lookup _ _ Hwf). eauto.
Qed.

Lemma wf_lookup_bound b ps p v :
  wf b ps → pathMap b !! p = Some v → ∃ j, j ≤ length ps ∧ v = nid j.
Proof.
  intros Hwf Hv. apply (wf_lookup _ _ Hwf) in Hv as (i & Hi & ->).
  exists i. split; [|done]. apply lookup_lt_Some in Hi. simpl in Hi. lia.
Qed.

Lemma wf_register b ps parent cur part isLast :
  wf b ps → cur ∉ "" :: ps → (∃ j, j ≤ length ps ∧ parent = nid j) →
  wf (register b parent cur part isLast) (ps ++ [cur]).
Proof.
  intros Hwf Hfresh (j & Hj & ->).
  pose proof (wf_links_length _ _ Hwf) as Hlen.
  split; cbn [register b_nodes b_links pathMap nodeIdCounter].
  - rewrite app_comm_cons. apply NoDup_app. split; [apply Hwf|].
    split; [|apply NoDup_singleton].
    intros x Hx ->%list_elem_of_singleton. done.
  - rewrite (wf_counter _ _ Hwf), length_app. simpl. lia.
  - intros p v. rewrite lookup_insert, (wf_counter _ _ Hwf). case_decide as Hp.
    + subst p. split.
      * intros [= <-]. exists (S (length ps)). split; [|done].
        rewrite app_comm_cons, lookup_app_r by (simpl; lia).
        simpl. by rewrite Nat.sub_diag.
      * intros (i & Hi & ->). f_equal.
        destruct (decide (i < S (length ps))) as [Hlt|Hge].
        -- rewrite app_comm_cons, lookup_app_l in Hi by (simpl; lia).
           destruct Hfresh. by eapply list_elem_of_lookup_2.
        -- apply lookup_lt_Some in Hi. rewrite app_comm_cons, length_app in Hi.
           simpl in Hi. by replace i with (S (length ps)) by lia.
    + rewrite (wf_lookup _ _ Hwf). split.
      * intros (i & Hi & ->). exists i. split; [|done].
        rewrite app_comm_cons. by apply lookup_app_l_Some.
      * intros (i & Hi & ->). exists i. split; [|done].
        rewrite app_comm_cons in Hi. apply lookup_app_Some in Hi as [Hi|[Hge Hi]].
        -- done.
        -- apply list_lookup_singleton_Some in Hi as [_ <-]. done.
  - rewrite fmap_app, (wf_ids _ _ Hwf), (wf_counter _ _ Hwf), length_app.
    rewrite Nat.add_1_r, (seq_S (S (length ps)) 0), fmap_app. done.
  - pose proof (wf_root _ _ Hwf) as Hr. by destruct (b_nodes b).
  - rewrite fmap_app, (wf_targets _ _ Hwf), (wf_counter _ _ Hwf), length_app.
    rewrite Nat.add_1_r, (seq_S (length ps) 1), fmap_app. done.
  - intros i e Hi. apply lookup_app_Some in Hi as [Hi|[Hge Hi]].
    + by apply (wf_sources _ _ Hwf).
    + apply list_lookup_singleton_Some in Hi as [Hi <-]. simpl.
      exists j. split; [lia|done].
Qed.

(** One round of the inner loop. *)
Lemma visit_part_wf len b c ps part index :
  wf b ps → pathMap b !! currentPath c = Some (parentId c) →
  ∃ b' pid,
    visit_part len (b, c) part index
      = Some (b', {| currentPath := extend (currentPath c) part;
                     parentId := pid |}) ∧
    wf b' (seen_add ps (extend (currentPath c) part)) ∧
    pathMap b' !! extend (currentPath c) part = Some pid.
Proof.
  intros Hwf Hc. unfold visit_part, seen_add.
  set (cur := extend (currentPath c) part).
  pose proof (wf_lookup_mem _ _ cur Hwf) as Hmem.
  destruct (decide (cur ∈ "" :: ps)) as [Hin|Hnin].
  - apply Hmem in Hin as Hsome. rewrite bool_decide_eq_true_2 by done. simpl.
    destruct Hsome as [pid Hpid]. exists b, pid. by rewrite Hpid.
  - rewrite bool_decide_eq_false_2 by (by rewrite Hmem). simpl.
    exists (register b (parentId c) cur part (bool_decide (index = len - 1))),
      (node_id (nodeIdCounter b)).
    rewrite lookup_insert_eq. simpl. split; [done|]. split; [|by rewrite lookup_insert_eq].
    apply wf_register; [done..|]. by eapply wf_lookup_bound.
Qed.

(** The inner loop, from any index on. *)
Lemma visit_parts_wf len parts : ∀ index b c ps,
  wf b ps → pathMap b !! currentPath c = Some (parentId c) →
  ∃ b' c',
    JS.forEach_from (visit_part len) index parts (b, c) = Some (b', c') ∧
    wf b' (foldl seen_add ps (prefixes_from (currentPath c) parts)) ∧
    pathMap b' !! currentPath c' = Some (parentId c').
Proof.
  induction parts as [|part parts IH]; intros index b c ps Hwf Hc.
  - exists b, c. done.
  - destruct (visit_part_wf len b c ps part index Hwf Hc)
      as (b1 & pid & Hstep & Hwf1 & Hpid).
    cbn [JS.forEach_from prefixes_from foldl]. rewrite Hstep. simpl.
    apply (IH (S index) b1
             {| currentPath := extend (currentPath c) part; parentId := pid |}
             _ Hwf1 Hpid).
Qed.

Lemma visit_file_wf b ps f index :
  wf b ps →
  ∃ b', visit_file b f index = Some b' ∧
        wf b' (foldl seen_add ps (entry_prefixes f)).
Proof.
  intros Hwf. unfold visit_file, JS.forEach, entry_prefixes.
  destruct (visit_parts_wf (length (JS.split "/" (path f)))
              (JS.split "/" (path f)) 0 b
              {| currentPath := ""; parentId := "root" |} ps Hwf)
    as (b' & c' & Hrun & Hwf' & _).
  { simpl. by eapply wf_lookup_root. }
  exists b'. rewrite Hrun. done.
Qed.

Lemma visit_files_wf files : ∀ index b ps,
  wf b ps →
  ∃ b', JS.forEach_from visit_file index files b = Some b' ∧
        wf b' (foldl seen_add ps (all_prefixes files)).
Proof.
  induction files as [|f files IH]; intros index b ps Hwf.
  - exists b. done.
  - destruct (visit_file_wf b ps f index Hwf) as (b1 & Hstep & Hwf1).
    cbn [JS.forEach_from]. rewrite Hstep. simpl.
    destruct (IH (S index) b1 _ Hwf1) as (b' & Hrun & Hwf').
    exists b'. split; [done|].
    unfold all_prefixes. rewrite fmap_cons. simpl. by rewrite foldl_app.
Qed.

(** [build] always succeeds, and its final state satisfies the invariant
    for the first-seen prefixes of the first 100 entries. *)
Lemma build_wf tree :
  ∃ b, build tree = Some b ∧ wf b (first_seen (all_prefixes (take 100 tree))).
Proof.
  unfold build, JS.forEach, JS.slice0, first_seen.
  apply visit_files_wf, wf_initial.
Qed.

Lemma generateGraphFromTree_build tree b :
  build tree = Some b → generateGraphFromTree tree = Some (graph_of b).
Proof. intros Hb. unfold generateGraphFromTree. by rewrite Hb. Qed.

(** ** Shape of the graph under the invariant *)

Lemma filter_absent {A B} `{EqDecision B} (f : A → B) (l : list A) x :
  x ∉ f <$> l → filter (λ e, f e = x) l = [].
Proof.
  induction l as [|a l IH]; intros Hx; [done|].
  rewrite fmap_cons in Hx. apply not_elem_of_cons in Hx as [Hne Hx].
  rewrite filter_cons_False by done. by apply IH.
Qed.

Lemma filter_unique_length {A B} `{EqDecision B} (f : A → B) (l : list A) x :
  NoDup (f <$> l) → x ∈ f <$> l → length (filter (λ e, f e = x) l) = 1.
Proof.
  induction l as [|a l IH]; intros Hnd Hx.
  - by apply elem_of_nil in Hx.
  - rewrite fmap_cons in Hnd, Hx. apply NoDup_cons in Hnd as [Ha Hnd].
    rewrite filter_cons. case_decide as Hfa.
    + subst x. simpl. by rewrite filter_absent.
    + apply IH; [done|]. apply elem_of_cons in Hx as [->|Hx]; done.
Qed.

Lemma nid_seq_nodup start len : NoDup (nid <$> seq start len).
Proof. apply (NoDup_fmap_2 _), NoDup_seq. Qed.

Lemma elem_of_nid_seq x start len :
  x ∈ nid <$> seq start len ↔ ∃ k, x = nid k ∧ start ≤ k < start + len.
Proof.
  rewrite list_elem_of_fmap. setoid_rewrite elem_of_seq. naive_solver.
Qed.

Lemma wf_link b ps i e :
  wf b ps → b_links b !! i = Some e →
  i < length ps ∧ target e = nid (S i) ∧ ∃ j, j ≤ i ∧ source e = nid j.
Proof.
  intros Hwf Hi.
  assert (i < length ps) as Hlt.
  { rewrite <-(wf_links_length _ _ Hwf). by eapply lookup_lt_Some. }
  split; [done|]. split; [|by eapply wf_sources].
  assert ((target <$> b_links b) !! i = Some (target e)) as Ht.
  { by rewrite list_lookup_fmap, Hi. }
  rewrite (wf_targets _ _ Hwf), list_lookup_fmap, lookup_seq_lt in Ht by done.
  by injection Ht.
Qed.

Lemma wf_edge b ps a c :
  wf b ps → edge (graph_of b) a c →
  ∃ j k, a = nid j ∧ c = nid k ∧ j < k ≤ length ps.
Proof.
  intros Hwf (e & [i Hi]%list_elem_of_lookup & <- & <-).
  destruct (wf_link _ _ _ _ Hwf Hi) as (Hlt & -> & j & Hj & ->).
  exists j, (S i). repeat split; lia.
Qed.

Lemma wf_path b ps a c :
  wf b ps → tc (edge (graph_of b)) a c →
  ∃ j k, a = nid j ∧ c = nid k ∧ j < k ≤ length ps.
Proof.
  intros Hwf Htc. induction Htc as [a c He|a m c He _ IH].
  - by eapply wf_edge.
  - destruct (wf_edge _ _ _ _ Hwf He) as (j & k & -> & -> & Hjk).
    destruct IH as (k' & l & Hk & -> & Hkl). apply nid_inj in Hk as <-.
    exists j, l. repeat split; lia.
Qed.

Lemma wf_reach b ps k :
  wf b ps → k ≤ length ps → rtc (edge (graph_of b)) "root" (nid k).
Proof.
  intros Hwf. induction k as [k IH] using lt_wf_ind. intros Hk.
  destruct k as [|i]; [done|].
  destruct (lookup_lt_is_Some_2 (b_links b) i) as [e Hi].
  { rewrite (wf_links_length _ _ Hwf). lia. }
  destruct (wf_link _ _ _ _ Hwf Hi) as (_ & Ht & j & Hj & Hs).
  eapply rtc_r; [apply (IH j); lia|].
  exists e. split; [|done]. by eapply list_elem_of_lookup_2.
Qed.

Lemma wf_rooted_tree b ps : wf b ps → rooted_tree (graph_of b).
Proof.
  intros Hwf. split; simpl.
  - rewrite (wf_ids _ _ Hwf). apply nid_seq_nodup.
  - intros e [i Hi]%list_elem_of_lookup.
    destruct (wf_link _ _ _ _ Hwf Hi) as (Hlt & -> & j & Hj & ->).
    rewrite (wf_ids _ _ Hwf), !elem_of_nid_seq. split; eexists; (split; [done|lia]).
  - intros n Hn Hroot. unfold incoming. simpl.
    apply filter_unique_length.
    + rewrite (wf_targets _ _ Hwf). apply nid_seq_nodup.
    + apply (list_elem_of_fmap_2 id) in Hn.
      rewrite (wf_ids _ _ Hwf) in Hn. rewrite (wf_targets _ _ Hwf).
      apply elem_of_nid_seq in Hn as (k & Hk & Hb). apply elem_of_nid_seq.
      exists k. split; [done|]. rewrite Hk, nid_root in Hroot. lia.
  - intros n Hn. apply (list_elem_of_fmap_2 id) in Hn.
    rewrite (wf_ids _ _ Hwf) in Hn.
    apply elem_of_nid_seq in Hn as (k & -> & Hb).
    eapply wf_reach; [done|lia].
  - intros a Ha. destruct (wf_path _ _ _ _ Hwf Ha) as (j & k & -> & Hk & Hjk).
    apply nid_inj in Hk. lia.
Qed.

(** ** First-seen order *)

Lemma seen_add_elem ps p x : x ∈ seen_add ps p ↔ x ∈ ps ∨ (x = p ∧ x ≠ "").
Proof.
  unfold seen_add. case_decide as Hp.
  - apply elem_of_cons in Hp. naive_solver.
  - rewrite elem_of_app, list_elem_of_singleton.
    apply not_elem_of_cons in Hp. naive_solver.
Qed.

Lemma seen_add_nodup ps p : NoDup ("" :: ps) → NoDup ("" :: seen_add ps p).
Proof.
  intros Hnd. unfold seen_add. case_decide as Hp; [done|].
  rewrite app_comm_cons. apply NoDup_app. split; [done|].
  split; [|apply NoDup_singleton]. by intros x Hx ->%list_elem_of_singleton.
Qed.

Lemma seen_add_prefix ps p : ps `prefix_of` seen_add ps p.
Proof. unfold seen_add. case_decide; [done|]. by apply prefix_app_r. Qed.

Lemma foldl_seen_add_elem l : ∀ ps x,
  x ∈ foldl seen_add ps l ↔ x ∈ ps ∨ (x ∈ l ∧ x ≠ "").
Proof.
  induction l as [|p l IH]; intros ps x; simpl.
  - rewrite elem_of_nil. naive_solver.
  - rewrite IH, seen_add_elem, elem_of_cons. naive_solver.
Qed.

Lemma foldl_seen_add_nodup l : ∀ ps,
  NoDup ("" :: ps) → NoDup ("" :: foldl seen_add ps l).
Proof.
  induction l as [|p l IH]; intros ps Hnd; simpl; [done|].
  by apply IH, seen_add_nodup.
Qed.

Lemma foldl_seen_add_prefix l : ∀ ps, ps `prefix_of` foldl seen_add ps l.
Proof.
  induction l as [|p l IH]; intros ps; simpl; [done|].
  etrans; [apply seen_add_prefix|apply IH].
Qed.

(** [first_seen l] holds each non-empty element of [l] once ... *)
Lemma first_seen_elem l x : x ∈ first_seen l ↔ x ∈ l ∧ x ≠ "".
Proof.
  unfold first_seen. rewrite foldl_seen_add_elem, elem_of_nil. naive_solver.
Qed.

Lemma first_seen_nodup l : NoDup (first_seen l).
Proof.
  unfold first_seen.
  by eapply NoDup_cons_1_2, foldl_seen_add_nodup, NoDup_singleton.
Qed.

(** ... and in the order of the first occurrences: reading more of the
    list only appends. *)
Lemma first_seen_app l1 l2 : first_seen l1 `prefix_of` first_seen (l1 ++ l2).
Proof. unfold first_seen. rewrite foldl_app. apply foldl_seen_add_prefix. Qed.

(** ** Generic facts about [forEach] *)

Lemma forEach_from_app {Σ A} (f : Σ → A → nat → option Σ) l1 l2 : ∀ index σ,
  JS.forEach_from f index (l1 ++ l2) σ
  = JS.forEach_from f index l1 σ ≫= JS.forEach_from f (index + length l1) l2.
Proof.
  induction l1 as [|x l1 IH]; intros index σ; simpl.
  - by rewrite Nat.add_0_r.
  - destruct (f σ x index) as [σ1|]; simpl; [|done].
    rewrite IH. by replace (S index + length l1) with (index + S (length l1)) by lia.
Qed.

Lemma forEach_from_rel {Σ A} (R : relation Σ) `{!Reflexive R, !Transitive R}
    (f : Σ → A → nat → option Σ) :
  (∀ σ x index σ', f σ x index = Some σ' → R σ σ') →
  ∀ l index σ σ', JS.forEach_from f index l σ = Some σ' → R σ σ'.
Proof.
  intros Hf. induction l as [|x l IH]; intros index σ σ' Hrun; simpl in Hrun.
  - by injection Hrun as ->.
  - destruct (f σ x index) as [σ1|] eqn:Hstep; simpl in Hrun; [|done].
    etrans; [by eapply Hf|by eapply IH].
Qed.

(** ** The two branches of the inner callback *)

Lemma visit_part_known len b c part index pid :
  pathMap b !! extend (currentPath c) part = Some pid →
  visit_part len (b, c) part index
  = Some (b, {| currentPath := extend (currentPath c) part; parentId := pid |}).
Proof.
  intros Hpid. unfold visit_part.
  rewrite bool_decide_eq_true_2 by (by rewrite Hpid). simpl. by rewrite Hpid.
Qed.

Lemma visit_part_fresh len b c part index :
  pathMap b !! extend (currentPath c) part = None →
  visit_part len (b, c) part index
  = Some (register b (parentId c) (extend (currentPath c) part) part
            (bool_decide (index = len - 1)),
          {| currentPath := extend (currentPath c) part;
             parentId := node_id (nodeIdCounter b) |}).
Proof.
  intros Hnone. unfold visit_part.
  rewrite bool_decide_eq_false_2 by (rewrite Hnone; by intros [??]).
  cbn [negb register pathMap]. by rewrite lookup_insert_eq.
Qed.

(** ** The arrays only grow *)

Global Instance grows_refl : Reflexive grows.
Proof. by intros b. Qed.
Global Instance grows_trans : Transitive grows.
Proof. intros b1 b2 b3 [??] [??]. split; by etrans. Qed.

Global Instance grows_cur_refl : Reflexive grows_cur.
Proof. by intros σ. Qed.
Global Instance grows_cur_trans : Transitive grows_cur.
Proof. intros σ1 σ2 σ3 ??. unfold grows_cur in *. by etrans. Qed.

Lemma visit_part_grows len σ part index σ' :
  visit_part len σ part index = Some σ' → grows_cur σ σ'.
Proof.
  destruct σ as [b c]. intros Hstep.
  destruct (pathMap b !! extend (currentPath c) part) as [pid|] eqn:Hcur.
  - rewrite (visit_part_known _ _ _ _ _ _ Hcur) in Hstep.
    by injection Hstep as <-.
  - rewrite (visit_part_fresh _ _ _ _ _ Hcur) in Hstep.
    injection Hstep as <-. split; simpl; by apply prefix_app_r.
Qed.

Lemma visit_file_grows b f index b' :
  visit_file b f index = Some b' → grows b b'.
Proof.
  unfold visit_file, JS.forEach. intros Hrun.
  destruct (JS.forEach_from _ _ _ _) as [σ|] eqn:Hloop; simplify_eq/=.
  by apply (forEach_from_rel grows_cur _ (visit_part_grows _)) in Hloop.
Qed.

Lemma visit_files_grows files index b b' :
  JS.forEach_from visit_file index files b = Some b' → grows b b'.
Proof. apply (forEach_from_rel grows), visit_file_grows. Qed.

(** ** Entries that are visited alike *)

Lemma same_visit_path f g : path f = path g → same_visit f g.
Proof. intros Hp b ps i j _. unfold visit_file. by rewrite Hp. Qed.

Lemma visit_files_same l1 l2 :
  Forall2 same_visit l1 l2 → ∀ b ps i j, wf b ps →
  JS.forEach_from visit_file i l1 b = JS.forEach_from visit_file j l2 b.
Proof.
  induction 1 as [|f g l1 l2 Hfg _ IH]; intros b ps i j Hwf; [done|].
  simpl. rewrite <-(Hfg b ps i j Hwf).
  destruct (visit_file_wf b ps f i Hwf) as (b1 & -> & Hwf1). simpl.
  by eapply IH.
Qed.

Lemma generateGraphFromTree_same t1 t2 :
  Forall2 same_visit t1 t2 →
  generateGraphFromTree t1 = generateGraphFromTree t2.
Proof.
  intros Hsame. unfold generateGraphFromTree, build, JS.forEach, JS.slice0.
  by rewrite (visit_files_same _ _ (Forall2_take _ _ _ 100 Hsame)
                initial [] 0 0 wf_initial).
Qed.

(** ** Entries whose prefixes are all registered *)

Lemma elem_of_all_prefixes tree p :
  p ∈ all_prefixes tree ↔ ∃ f, f ∈ tree ∧ p ∈ entry_prefixes f.
Proof.
  unfold all_prefixes. induction tree as [|f tree IH]; simpl.
  - rewrite elem_of_nil. split; [done|]. by intros (f & ?%elem_of_nil & _).
  - rewrite elem_of_app, IH. setoid_rewrite elem_of_cons. naive_solver.
Qed.

Lemma visit_parts_known len b parts : ∀ index c,
  (∀ p, p ∈ prefixes_from (currentPath c) parts → is_Some (pathMap b !! p)) →
  ∃ c', JS.forEach_from (visit_part len) index parts (b, c) = Some (b, c').
Proof.
  induction parts as [|part parts IH]; intros index c Hall;
    cbn [JS.forEach_from].
  - by exists c.
  - destruct (Hall (extend (currentPath c) part)) as [pid Hpid].
    { simpl. apply elem_of_cons. by left. }
    rewrite (visit_part_known _ _ _ _ _ _ Hpid). simpl.
    apply IH. intros p Hp. apply Hall. simpl. apply elem_of_cons. by right.
Qed.

Lemma visit_file_known b f index :
  (∀ p, p ∈ entry_prefixes f → is_Some (pathMap b !! p)) →
  visit_file b f index = Some b.
Proof.
  intros Hall. unfold visit_file, JS.forEach.
  destruct (visit_parts_known (length (JS.split "/" (path f))) b
              (JS.split "/" (path f)) 0
              {| currentPath := ""; parentId := "root" |} Hall) as [c' ->].
  done.
Qed.

Lemma generateGraphFromTree_take tree :
  generateGraphFromTree tree = generateGraphFromTree (take 100 tree).
Proof.
  unfold generateGraphFromTree, build, JS.slice0. by rewrite take_take.
Qed.

Lemma build_app t1 t2 :
  build (t1 ++ t2)
  = build t1 ≫= JS.forEach_from visit_file (length (take 100 t1))
                   (take (100 - length t1) t2).
Proof.
  unfold build, JS.forEach, JS.slice0. by rewrite take_app, forEach_from_app.
Qed.

Lemma nid_seq_1 len : nid <$> seq 1 len = node_id <$> seq 1 len.
Proof.
  apply list_fmap_ext. intros i k [-> _]%lookup_seq. done.
Qed.

(** ** Splitting *)

Lemma split_length sep s : length (JS.split sep s) = S (count_sep sep s).
Proof.
  induction s as [|c s IH]; [done|]. simpl.
  destruct (decide (c = sep)); simpl; [by rewrite IH|].
  pose proof (split_nonempty sep s) as Hne.
  destruct (JS.split sep s); [done|]. simpl in *. lia.
Qed.

(** ** A leading ['/'] is not seen *)

Lemma visit_parts_shift len parts : ∀ index σ,
  1 ≤ len →
  JS.forEach_from (visit_part (S len)) (S index) parts σ
  = JS.forEach_from (visit_part len) index parts σ.
Proof.
  induction parts as [|part parts IH]; intros index [b c] Hlen; [done|].
  cbn [JS.forEach_from].
  assert (visit_part (S len) (b, c) part (S index)
          = visit_part len (b, c) part index) as ->.
  { unfold visit_part.
    by rewrite (bool_decide_ext (S index = S len - 1) (index = len - 1)) by lia. }
  destruct (visit_part len (b, c) part index) as [σ1|]; [|done].
  simpl. by apply IH.
Qed.

Lemma same_visit_leading_slash p : same_visit (file (String "/" p)) (file p).
Proof.
  intros b ps i j Hwf. unfold visit_file, JS.forEach.
  cbn [path file]. cbn [JS.split]. rewrite decide_True by done.
  cbn [length JS.forEach_from].
  rewrite (visit_part_known _ _ _ _ _ "root") by (by eapply wf_lookup_root).
  cbn [mbind option_bind]. rewrite visit_parts_shift; [done|].
  rewrite split_length. lia.
Qed.

Global Instance same_visit_refl : Reflexive same_visit.
Proof. intros f. by apply same_visit_path. Qed.

(** ** More on splitting *)

Lemma truthy_iff s : JS.truthy s ↔ s ≠ "".
Proof. by destruct s. Qed.

Lemma split_no_sep sep s : count_sep sep s = 0 → JS.split sep s = [s].
Proof.
  induction s as [|c s IH]; [done|]. simpl.
  destruct (decide (c = sep)); [done|]. simpl. by intros ->%IH.
Qed.

Lemma split_single sep s a :
  JS.split sep s = [a] ↔ s = a ∧ count_sep sep a = 0.
Proof.
  split.
  - intros Hs. pose proof (split_length sep s) as Hlen.
    rewrite Hs in Hlen. simpl in Hlen.
    rewrite split_no_sep in Hs by lia. injection Hs as <-. split; [done|lia].
  - intros [-> Ha]. by apply split_no_sep.
Qed.

Lemma split_pair sep s a b :
  JS.split sep s = [a; b] ↔
  s = a +:+ String sep b ∧ count_sep sep a = 0 ∧ count_sep sep b = 0.
Proof.
  split.
  - revert a. induction s as [|c s IH]; intros a; [done|]. simpl.
    destruct (decide (c = sep)) as [->|Hc].
    + intros [= <- [-> Hb]%split_single]. done.
    + destruct (JS.split sep s) as [|tok toks] eqn:Hs; [done|].
      intros [= <- ->]. destruct (IH tok eq_refl) as (-> & Htok & Hb).
      simpl. by rewrite decide_False by done.
  - intros (-> & Ha & Hb). induction a as [|c a IH]; simpl in *.
    + rewrite decide_True by done. by rewrite split_no_sep.
    + destruct (decide (c = sep)); [done|]. by rewrite IH.
Qed.

Lemma split_app sep a b :
  JS.split sep (a +:+ String sep b) = JS.split sep a ++ JS.split sep b.
Proof.
  induction a as [|c a IH].
  - change ("" +:+ String sep b) with (String sep b). simpl.
    by rewrite decide_True by done.
  - change (String c a +:+ String sep b) with (String c (a +:+ String sep b)).
    simpl. destruct (decide (c = sep)); [by rewrite IH|]. rewrite IH.
    pose proof (split_nonempty sep a). by destruct (JS.split sep a).
Qed.

Lemma strip_trailing_slash_app s : strip_trailing_slash (s +:+ "/") = s.
Proof.
  induction s as [|c s IH]; [done|].
  change (String c s +:+ "/") with (String c (s +:+ "/")).
  cbn [strip_trailing_slash]. rewrite IH. by destruct s.
Qed.

Lemma strip_trailing_slash_id s :
  last_char s ≠ Some "/"%char → strip_trailing_slash s = s.
Proof.
  induction s as [|c s IH]; [done|]. cbn [strip_trailing_slash last_char].
  destruct s as [|c' s].
  - intros Hc. rewrite decide_False; [done|]. by intros ->.
  - intros Hc. by rewrite IH.
Qed.

(** ** The two branches of [parseRepoInput] *)

Section ParseRepoInputFacts.

Variable URL_new : string → option URL.
Variable trim : string → string.

Lemma parse_url_spec clean d :
  parse_url URL_new clean = Some d ↔ github_url URL_new clean d.
Proof.
  unfold parse_url, github_url.
  destruct (URL_new clean) as [url|]; [|split; [done|by intros (?&?&?&_)]].
  rewrite (list_filter_iff (λ s, Is_true (JS.truthy s)) (λ s, s ≠ ""))
    by (intros s; apply truthy_iff).
  destruct (decide (hostname url = "github.com")) as [Hh|Hh];
    [|split; [done|by intros (?&?&[= <-]&?&_)]].
  destruct (filter _ _) as [|o [|r rest]] eqn:Hparts.
  - rewrite decide_False by (simpl; lia).
    split; [done|]. intros (?&?&[= <-]&_&Hf). by rewrite Hparts in Hf.
  - rewrite decide_False by (simpl; lia).
    split; [done|]. intros (?&?&[= <-]&_&Hf). by rewrite Hparts in Hf.
  - rewrite decide_True by (simpl; lia). destruct d as [o' r']. simpl. split.
    + intros [= <- <-]. by exists url, rest.
    + intros (?&?&[= <-]&_&Hf). rewrite Hparts in Hf. by injection Hf as <- <- _.
Qed.

Lemma bare_token_split clean d :
  bare_token clean d → JS.split "/" clean = [owner d; repo d].
Proof. intros (Hc & _ & _ & Ho & Hr). by apply split_pair. Qed.

Lemma parse_bare_spec clean d :
  parse_bare clean = Some d ↔ bare_token clean d.
Proof.
  split.
  - unfold parse_bare. intros Hp.
    destruct (JS.split "/" clean) as [|o [|r [|x rest]]] eqn:Hs;
      try (rewrite decide_False in Hp by (simpl; lia); done).
    rewrite decide_True in Hp by done. simpl in Hp.
    destruct (JS.truthy o) eqn:Ho; [|done].
    destruct (JS.truthy r) eqn:Hr; [|done].
    injection Hp as <-. apply split_pair in Hs as (-> & Hco & Hcr).
    unfold bare_token. simpl. repeat split; try done.
    + apply truthy_iff. by rewrite Ho.
    + apply truthy_iff. by rewrite Hr.
  - intros Hb. unfold parse_bare. rewrite (bare_token_split _ _ Hb).
    rewrite decide_True by done. simpl.
    destruct Hb as (_ & Ho%truthy_iff & Hr%truthy_iff & _).
    destruct (JS.truthy (owner d)); [|done].
    destruct (JS.truthy (repo d)); [|done]. by destruct d.
Qed.

End ParseRepoInputFacts.

(** ** The functions on concrete inputs *)

(** The end-to-end scenario of the specification. *)
Example generateGraphFromTree_scenario :
  generateGraphFromTree
    [file "src/index.ts"; file "src/utils/helpers.ts"; file "package.json"]
  = Some {| nodes := [root_node;
                      {| id := "node_1"; group := 5; label := "src" |};
                      {| id := "node_2"; group := 2; label := "index.ts" |};
                      {| id := "node_3"; group := 5; label := "utils" |};
                      {| id := "node_4"; group := 2; label := "helpers.ts" |};
                      {| id := "node_5"; group := 4; label := "package.json" |}];
            links := [{| source := "root"; target := "node_1"; value := 1 |};
                      {| source := "node_1"; target := "node_2"; value := 1 |};
                      {| source := "node_1"; target := "node_3"; value := 1 |};
                      {| source := "node_3"; target := "node_4"; value := 1 |};
                      {| source := "root"; target := "node_5"; value := 1 |}]
         |}.
Proof. vm_compute. reflexivity. Qed.

Example group_of_extensions :
  group_of true "app.css" = 3%Z ∧ group_of true "settings.json" = 4%Z ∧
  group_of true "index.TS" = 1%Z ∧ group_of true "a.b.tsx" = 2%Z ∧
  group_of true "trailing." = 1%Z.
Proof. repeat split; vm_compute; reflexivity. Qed.

(** A [URL] constructor that knows one address, for running the parser. *)
Definition one_url (s : string) : option URL :=
  if decide (s = "https://github.com/octocat/hello/tree/main")
  then Some {| hostname := "github.com";
               pathname := "/octocat/hello/tree/main" |}
  else None.

Example parseRepoInput_runs :
  parseRepoInput one_url (λ s, s) "https://github.com/octocat/hello/tree/main/"
  = Some {| owner := "octocat"; repo := "hello" |} ∧
  parseRepoInput one_url (λ s, s) "octocat/hello"
  = Some {| owner := "octocat"; repo := "hello" |} ∧
  parseRepoInput one_url (λ s, s) "octocat/hello/" 
  = Some {| owner := "octocat"; repo := "hello" |} ∧
  parseRepoInput one_url (λ s, s) "octocat/hello//" = None ∧
  parseRepoInput one_url (λ s, s) "octocat" = None ∧
  parseRepoInput one_url (λ s, s) "/hello" = None ∧
  parseRepoInput one_url (λ s, s) "a/b/c" = None.
Proof. repeat split; vm_compute; reflexivity. Qed.

(** * The claims *)

(** C1: for every input collection the returned graph is a tree rooted at
    the node ["root"]: node ids are pairwise distinct, every edge joins two
    nodes, every node other than the root has exactly one incoming edge,
    every node is reachable from the root, and no node reaches itself. *)
Theorem C1_rooted_tree (tree : list RepoFileTree) :
  ∃ g, generateGraphFromTree tree = Some g ∧ rooted_tree g.
Proof.
  destruct (build_wf tree) as (b & Hb & Hwf).
  exists (graph_of b). split; [by apply generateGraphFromTree_build|].
  by eapply wf_rooted_tree.
Qed.

(** C4: the graph is built from the first 100 entries only: the function
    applied to an input equals the function applied to the first 100
    entries of that input. *)
Theorem C4_truncation (tree : list RepoFileTree) :
  generateGraphFromTree tree = generateGraphFromTree (take 100 tree).
Proof. apply generateGraphFromTree_take. Qed.

(** C6: for every input collection the output holds exactly one node with
    id ["root"], that node is [{id:"root", group:0, label:"root"}], and no
    edge has ["root"] as its target. *)
Theorem C6_single_root (tree : list RepoFileTree) :
  ∃ g, generateGraphFromTree tree = Some g ∧
       filter (λ n, id n = "root") (nodes g) = [root_node] ∧
       Forall (λ e, target e ≠ "root") (links g).
Proof.
  destruct (build_wf tree) as (b & Hb & Hwf).
  exists (graph_of b). split; [by apply generateGraphFromTree_build|].
  simpl. split.
  - pose proof (wf_root _ _ Hwf) as Hr. pose proof (wf_ids _ _ Hwf) as Hids.
    destruct (b_nodes b) as [|n ns]; [done|].
    injection Hr as ->. cbn [seq] in Hids. rewrite !fmap_cons in Hids.
    injection Hids as Hids.
    rewrite filter_cons_True by done. f_equal.
    apply filter_absent. rewrite Hids. intros (k & Hk & Hb')%elem_of_nid_seq.
    symmetry in Hk. apply nid_root in Hk. lia.
  - apply Forall_forall. intros e [i Hi]%list_elem_of_lookup.
    destruct (wf_link _ _ _ _ Hwf Hi) as (_ & -> & _). by rewrite nid_root.
Qed.

(** C8: the function is total, which in particular means that the lookup
    of the current prefix that ends every round of the inner loop always
    finds an id; on the empty collection it returns the root node alone
    and no edge. *)
Theorem C8_total (tree : list RepoFileTree) :
  is_Some (generateGraphFromTree tree) ∧
  generateGraphFromTree [] = Some {| nodes := [root_node]; links := [] |}.
Proof.
  split; [|done].
  destruct (build_wf tree) as (b & Hb & _).
  exists (graph_of b). by apply generateGraphFromTree_build.
Qed.

(** C2: node identity is keyed by the cumulative prefix.  A segment whose
    cumulative prefix is already registered creates no node and no edge,
    and the cursor moves to the node registered for it.  In the final
    state the registered prefixes are the empty prefix and the cumulative
    prefixes of the first 100 entries, distinct prefixes have distinct
    ids, each registered prefix has exactly one node, and every node is
    the node of a registered prefix.  ["src/a.ts"] and ["src/b.ts"] share
    the one node of ["src"]; ["a/x.ts"] and ["b/x.ts"] give two nodes
    labelled ["x.ts"]. *)
Theorem C2_prefix_identity :
  (∀ len b c part index pid,
     pathMap b !! extend (currentPath c) part = Some pid →
     visit_part len (b, c) part index
     = Some (b, {| currentPath := extend (currentPath c) part;
                   parentId := pid |})) ∧
  (∀ tree, ∃ b,
     build tree = Some b ∧ generateGraphFromTree tree = Some (graph_of b) ∧
     (∀ p, is_Some (pathMap b !! p) ↔
           p = "" ∨ p ∈ all_prefixes (take 100 tree)) ∧
     (∀ p q v, pathMap b !! p = Some v → pathMap b !! q = Some v → p = q) ∧
     (∀ p v, pathMap b !! p = Some v →
             length (filter (λ n, id n = v) (b_nodes b)) = 1) ∧
     (∀ n, n ∈ b_nodes b → ∃ p, pathMap b !! p = Some (id n))) ∧
  generateGraphFromTree [file "src/a.ts"; file "src/b.ts"]
  = Some {| nodes := [root_node;
                      {| id := "node_1"; group := 5; label := "src" |};
                      {| id := "node_2"; group := 2; label := "a.ts" |};
                      {| id := "node_3"; group := 2; label := "b.ts" |}];
            links := [{| source := "root"; target := "node_1"; value := 1 |};
                      {| source := "node_1"; target := "node_2"; value := 1 |};
                      {| source := "node_1"; target := "node_3"; value := 1 |}]
         |} ∧
  generateGraphFromTree [file "a/x.ts"; file "b/x.ts"]
  = Some {| nodes := [root_node;
                      {| id := "node_1"; group := 5; label := "a" |};
                      {| id := "node_2"; group := 2; label := "x.ts" |};
                      {| id := "node_3"; group := 5; label := "b" |};
                      {| id := "node_4"; group := 2; label := "x.ts" |}];
            links := [{| source := "root"; target := "node_1"; value := 1 |};
                      {| source := "node_1"; target := "node_2"; value := 1 |};
                      {| source := "root"; target := "node_3"; value := 1 |};
                      {| source := "node_3"; target := "node_4"; value := 1 |}]
         |}.
Proof.
  split; [apply visit_part_known|]. split; [|split; vm_compute; reflexivity].
  intros tree. destruct (build_wf tree) as (b & Hb & Hwf).
  exists b. split; [done|]. split; [by apply generateGraphFromTree_build|].
  repeat split.
  - intros Hp. apply (wf_lookup_mem _ _ _ Hwf), elem_of_cons in Hp as [->|Hp];
      [by left|]. apply first_seen_elem in Hp as [Hp _]. by right.
  - intros Hp. apply (wf_lookup_mem _ _ _ Hwf), elem_of_cons.
    destruct (decide (p = "")) as [->|Hne]; [by left|]. right.
    apply first_seen_elem. by destruct Hp.
  - intros p q v Hp Hq.
    apply (wf_lookup _ _ Hwf) in Hp as (i & Hi & ->).
    apply (wf_lookup _ _ Hwf) in Hq as (j & Hj & Hij).
    apply (inj nid) in Hij as ->. congruence.
  - intros p v Hv. apply filter_unique_length.
    + rewrite (wf_ids _ _ Hwf). apply nid_seq_nodup.
    + rewrite (wf_ids _ _ Hwf). apply elem_of_nid_seq.
      destruct (wf_lookup_bound _ _ _ _ Hwf Hv) as (j & Hj & ->).
      exists j. split; [done|lia].
  - intros n Hn. apply (list_elem_of_fmap_2 id) in Hn.
    rewrite (wf_ids _ _ Hwf) in Hn.
    apply elem_of_nid_seq in Hn as (k & Hk & Hb').
    destruct (lookup_lt_is_Some_2 ("" :: first_seen (all_prefixes (take 100 tree))) k)
      as [p Hp]; [simpl; lia|].
    exists p. apply (wf_lookup _ _ Hwf). eauto.
Qed.

Lemma C2_prefix_identity_witness :
  visit_part 1 (initial, {| currentPath := ""; parentId := "root" |}) "" 0
  = Some (initial, {| currentPath := ""; parentId := "root" |}).
Proof.
  apply (proj1 C2_prefix_identity 1 initial
           {| currentPath := ""; parentId := "root" |} "" 0 "root").
  reflexivity.
Defined.

(** C7: the function is deterministic.  Two inputs whose first 100
    entries carry the same paths in the same order give the same graph
    (whatever their [type] fields and their later entries are); the ids
    are ["root"], ["node_1"], ["node_2"], ... in this order, the [i]-th
    created node and the [i]-th edge belong to the [i]-th distinct
    non-empty prefix in first-seen order; and an entry that repeats an
    earlier one changes nothing. *)
Theorem C7_deterministic :
  (∀ t1 t2, path <$> take 100 t1 = path <$> take 100 t2 →
            generateGraphFromTree t1 = generateGraphFromTree t2) ∧
  (∀ tree, ∃ b,
     build tree = Some b ∧ generateGraphFromTree tree = Some (graph_of b) ∧
     let ps := first_seen (all_prefixes (take 100 tree)) in
     id <$> b_nodes b = "root" :: (node_id <$> seq 1 (length ps)) ∧
     target <$> b_links b = node_id <$> seq 1 (length ps) ∧
     ∀ i p, ps !! i = Some p → pathMap b !! p = Some (node_id (S i))) ∧
  (∀ tree f, f ∈ tree → length tree < 100 →
             generateGraphFromTree (tree ++ [f]) = generateGraphFromTree tree).
Proof.
  split; [|split].
  - intros t1 t2 Hpaths.
    rewrite (generateGraphFromTree_take t1), (generateGraphFromTree_take t2).
    apply generateGraphFromTree_same.
    assert (Forall2 (λ f g, path f = path g) (take 100 t1) (take 100 t2)) as H.
    { apply (Forall2_fmap path path (=)). by rewrite Hpaths. }
    eapply Forall2_impl; [exact H|]. apply same_visit_path.
  - intros tree. destruct (build_wf tree) as (b & Hb & Hwf).
    exists b. split; [done|]. split; [by apply generateGraphFromTree_build|].
    cbn zeta. split; [|split].
    + rewrite (wf_ids _ _ Hwf). cbn [seq]. rewrite fmap_cons.
      by rewrite nid_seq_1.
    + by rewrite (wf_targets _ _ Hwf), nid_seq_1.
    + intros i p Hi. apply (wf_lookup _ _ Hwf). by exists (S i).
  - intros tree f Hf Hlen.
    unfold generateGraphFromTree. rewrite build_app.
    destruct (build_wf tree) as (b & Hb & Hwf). rewrite Hb.
    rewrite take_ge in Hwf by lia.
    rewrite (take_ge [f]) by (simpl; lia).
    cbn [mbind option_bind JS.forEach_from].
    rewrite visit_file_known; [done|].
    intros p Hp. apply (wf_lookup_mem _ _ _ Hwf), elem_of_cons.
    destruct (decide (p = "")) as [->|Hne]; [by left|]. right.
    apply first_seen_elem. split; [|done].
    apply elem_of_all_prefixes. eauto.
Qed.

Lemma C7_deterministic_witness :
  generateGraphFromTree [{| path := "src/a.ts"; type := "blob" |}]
  = generateGraphFromTree [{| path := "src/a.ts"; type := "tree" |}] ∧
  generateGraphFromTree ([file "src/a.ts"; file "lib"] ++ [file "src/a.ts"])
  = generateGraphFromTree [file "src/a.ts"; file "lib"].
Proof.
  split.
  - apply (proj1 C7_deterministic). reflexivity.
  - apply (proj2 (proj2 C7_deterministic)).
    + apply elem_of_cons. by left.
    + simpl. lia.
Defined.

(** C9: a node is never touched once it has been created: the nodes and
    edges obtained from an input are an initial segment of those obtained
    from any extension of it.  So when a path that was registered as a
    file comes back as a proper prefix of a later path, the node keeps its
    file group and gets a child: here the node of ["a.ts"] has group 2 and
    an outgoing edge. *)
Theorem C9_group_fixed :
  (∀ t1 t2, ∃ g1 g2,
     generateGraphFromTree t1 = Some g1 ∧
     generateGraphFromTree (t1 ++ t2) = Some g2 ∧
     nodes g1 `prefix_of` nodes g2 ∧ links g1 `prefix_of` links g2) ∧
  generateGraphFromTree [file "a.ts"; file "a.ts/b.ts"]
  = Some {| nodes := [root_node;
                      {| id := "node_1"; group := 2; label := "a.ts" |};
                      {| id := "node_2"; group := 2; label := "b.ts" |}];
            links := [{| source := "root"; target := "node_1"; value := 1 |};
                      {| source := "node_1"; target := "node_2"; value := 1 |}]
         |} ∧
  (∃ tree g n e,
     generateGraphFromTree tree = Some g ∧ n ∈ nodes g ∧ e ∈ links g ∧
     source e = id n ∧ group n ≠ 5%Z).
Proof.
  split; [|split].
  - intros t1 t2.
    destruct (build_wf t1) as (b1 & Hb1 & _).
    destruct (build_wf (t1 ++ t2)) as (b2 & Hb2 & _).
    exists (graph_of b1), (graph_of b2).
    split; [by apply generateGraphFromTree_build|].
    split; [by apply generateGraphFromTree_build|].
    rewrite build_app, Hb1 in Hb2. simpl in Hb2.
    by apply visit_files_grows in Hb2.
  - vm_compute. reflexivity.
  - eexists [file "a.ts"; file "a.ts/b.ts"], _,
      {| id := "node_1"; group := 2; label := "a.ts" |},
      {| source := "node_1"; target := "node_2"; value := 1 |}.
    split; [vm_compute; reflexivity|]. cbn [nodes links source id group].
    split; [set_solver|]. split; [set_solver|]. split; [reflexivity|discriminate].
Qed.

(** C3 (the code departs from the claim): the group of a final segment
    is read off the last ['.']-separated token of the segment.  When the
    segment has a ['.'], that token is what follows the last ['.'], as the
    claim says; when it has none, the token is the whole segment.  So the
    extensionless file ["config"] gets group 4, and the segments ["ts"]
    and ["html"] get 2 and 3, where the claim gives 1; the extensionless
    ["README"] does get 1, and a non-final segment always gets 5. *)
Theorem C3_extensionless_name_is_classified :
  generateGraphFromTree [file "config"]
  = Some {| nodes := [root_node;
                      {| id := "node_1"; group := 4; label := "config" |}];
            links := [{| source := "root"; target := "node_1"; value := 1 |}]
         |} ∧
  group_of true "ts" = 2%Z ∧ group_of true "html" = 3%Z ∧
  group_of true "README" = 1%Z ∧
  (∀ part, group_of false part = 5%Z) ∧
  (∀ a b, count_sep "." b = 0 →
          JS.pop (JS.split "." (a +:+ String "." b)) = Some b) ∧
  (∀ part, count_sep "." part = 0 → JS.pop (JS.split "." part) = Some part).
Proof.
  repeat split; try (vm_compute; reflexivity).
  - intros a b Hb. unfold JS.pop.
    by rewrite split_app, last_app, (split_no_sep _ _ Hb).
  - intros part Hp. unfold JS.pop. by rewrite (split_no_sep _ _ Hp).
Qed.

Lemma C3_extensionless_name_is_classified_witness :
  JS.pop (JS.split "." ("app" +:+ String "." "css")) = Some "css" ∧
  JS.pop (JS.split "." "config") = Some "config".
Proof.
  split.
  - apply (proj1 (proj2 (proj2 (proj2 (proj2 (proj2
             C3_extensionless_name_is_classified)))))). reflexivity.
  - apply (proj2 (proj2 (proj2 (proj2 (proj2 (proj2
             C3_extensionless_name_is_classified)))))). reflexivity.
Defined.

(** C5, as the code has it: the Path Segmenter keeps empty tokens, a path
    with [k] separators giving [k + 1] tokens.  No path makes the
    function fail.  An empty token met while the cumulative prefix is
    still empty creates no node: a leading ['/'] is not seen, and the
    empty path adds nothing.  An empty token after a non-empty prefix
    creates a node with an empty label: ["a//b"] gives three nodes below
    the root, labelled ["a"], [""] and ["b"], where ["a/b"] gives two. *)
Theorem C5_empty_tokens_kept :
  (∀ s, length (JS.split "/" s) = S (count_sep "/" s)) ∧
  (∀ tree, is_Some (generateGraphFromTree tree)) ∧
  (∀ t1 t2 p, generateGraphFromTree (t1 ++ file (String "/" p) :: t2)
              = generateGraphFromTree (t1 ++ file p :: t2)) ∧
  (∀ tree, length tree < 100 →
           generateGraphFromTree (tree ++ [file ""])
           = generateGraphFromTree tree) ∧
  generateGraphFromTree [file "a//b"]
  = Some {| nodes := [root_node;
                      {| id := "node_1"; group := 5; label := "a" |};
                      {| id := "node_2"; group := 5; label := "" |};
                      {| id := "node_3"; group := 1; label := "b" |}];
            links := [{| source := "root"; target := "node_1"; value := 1 |};
                      {| source := "node_1"; target := "node_2"; value := 1 |};
                      {| source := "node_2"; target := "node_3"; value := 1 |}]
         |} ∧
  generateGraphFromTree [file "a/b"]
  = Some {| nodes := [root_node;
                      {| id := "node_1"; group := 5; label := "a" |};
                      {| id := "node_2"; group := 1; label := "b" |}];
            links := [{| source := "root"; target := "node_1"; value := 1 |};
                      {| source := "node_1"; target := "node_2"; value := 1 |}]
         |}.
Proof.
  split; [apply split_length|]. split; [|split; [|split]].
  - intros tree. destruct (build_wf tree) as (b & Hb & _).
    exists (graph_of b). by apply generateGraphFromTree_build.
  - intros t1 t2 p. apply generateGraphFromTree_same.
    apply Forall2_app; [apply Forall_Forall2_diag, Forall_forall; done|].
    constructor; [apply same_visit_leading_slash|].
    apply Forall_Forall2_diag, Forall_forall; done.
  - intros tree Hlen. unfold generateGraphFromTree. rewrite build_app.
    destruct (build_wf tree) as (b & Hb & Hwf). rewrite Hb.
    rewrite (take_ge [file ""]) by (simpl; lia).
    cbn [mbind option_bind JS.forEach_from].
    rewrite visit_file_known; [done|].
    intros p [->|[]%elem_of_nil]%elem_of_cons.
    cbn [extend JS.truthy]. rewrite (wf_lookup_root _ _ Hwf). by eexists.
  - split; vm_compute; reflexivity.
Qed.

Lemma C5_empty_tokens_kept_witness :
  generateGraphFromTree ([file "a/b"] ++ [file ""])
  = generateGraphFromTree [file "a/b"].
Proof.
  apply (proj1 (proj2 (proj2 (proj2 C5_empty_tokens_kept)))). simpl. lia.
Defined.

(** C5 as the specification states it does not hold: splitting ["a//b"]
    yields an empty token, the graph of ["a//b"] has a node with an empty
    label, and it differs from the graph of ["a/b"]. *)
Lemma C5_counterexample :
  ¬ (∀ p tok, tok ∈ JS.split "/" p → tok ≠ "") ∧
  ¬ (∀ tree g n, generateGraphFromTree tree = Some g → n ∈ nodes g →
                 label n ≠ "") ∧
  generateGraphFromTree [file "a//b"] ≠ generateGraphFromTree [file "a/b"].
Proof.
  split; [|split].
  - intros H. apply (H "a//b" ""); [|done]. vm_compute. set_solver.
  - intros H.
    eapply (H [file "a//b"] _ {| id := "node_2"; group := 5; label := "" |}).
    + vm_compute. reflexivity.
    + cbn [nodes]. set_solver.
    + done.
  - vm_compute. discriminate.
Qed.

(** C10: [parseRepoInput] returns a pair exactly when the input, once
    trimmed and relieved of one trailing ['/'], is a github.com URL whose
    path has at least two segments (the first two are returned), or else
    is a bare [owner/repo] token with both parts non-empty and exactly
    one ['/']; every other input gives [null].  An input that differs
    from another by one trailing ['/'] is parsed like it. *)
Theorem C10_parseRepoInput
    (URL_new : string → option URL) (trim : string → string) :
  (∀ input d,
     parseRepoInput URL_new trim input = Some d ↔
     github_url URL_new (strip_trailing_slash (trim input)) d ∨
     ((∀ d', ¬ github_url URL_new (strip_trailing_slash (trim input)) d') ∧
      bare_token (strip_trailing_slash (trim input)) d)) ∧
  (∀ input,
     parseRepoInput URL_new trim input = None ↔
     ∀ d, ¬ github_url URL_new (strip_trailing_slash (trim input)) d ∧
          ¬ bare_token (strip_trailing_slash (trim input)) d) ∧
  (∀ input input',
     trim input' = trim input +:+ "/" →
     last_char (trim input) ≠ Some "/"%char →
     parseRepoInput URL_new trim input' = parseRepoInput URL_new trim input).
Proof.
  split; [|split].
  - intros input d. unfold parseRepoInput.
    destruct (parse_url _ _) as [d0|] eqn:Hu.
    + apply parse_url_spec in Hu. split.
      * intros [= <-]. by left.
      * intros [Hd|[Hno _]]; [|by destruct (Hno d0)].
        apply parse_url_spec in Hu, Hd. congruence.
    + rewrite parse_bare_spec. split.
      * intros Hb. right. split; [|done].
        intros d' Hd'%parse_url_spec. congruence.
      * intros [Hd%parse_url_spec|[_ Hb]]; [congruence|done].
  - intros input. unfold parseRepoInput.
    destruct (parse_url _ _) as [d0|] eqn:Hu.
    + apply parse_url_spec in Hu. split; [done|].
      intros Hno. by destruct (Hno d0).
    + split.
      * intros Hb d. split.
        -- intros Hd%parse_url_spec. congruence.
        -- intros Hd%parse_bare_spec. congruence.
      * intros Hno. destruct (parse_bare _) as [d|] eqn:Hb; [|done].
        apply parse_bare_spec in Hb. by destruct (Hno d).
  - intros input input' Htrim Hlast. unfold parseRepoInput.
    by rewrite Htrim, strip_trailing_slash_app, strip_trailing_slash_id.
Qed.

Lemma C10_parseRepoInput_witness :
  parseRepoInput (λ _, None) (λ s, s) "owner/repo/"
  = parseRepoInput (λ _, None) (λ s, s) "owner/repo".
Proof.
  apply (proj2 (proj2 (C10_parseRepoInput (λ _, None) (λ s, s))));
    [reflexivity|discriminate].
Defined.

(** * Further properties of the graph *)

(** ** What every registered prefix stands for *)

Lemma split_tokens sep s : Forall (λ tok, count_sep sep tok = 0) (JS.split sep s).
Proof.
  induction s as [|c s IH]; simpl; [by repeat constructor|].
  destruct (decide (c = sep)) as [->|Hc]; [by constructor|].
  destruct (JS.split sep s) as [|tok toks]; [repeat constructor|].
  - simpl. by rewrite decide_False.
  - apply Forall_cons in IH as [Htok Htoks]. constructor; [|done].
    simpl. by rewrite decide_False.
Qed.

Lemma described_initial : described initial [].
Proof. intros i p Hi. by rewrite lookup_nil in Hi. Qed.

Lemma described_register b ps c part isLast :
  wf b ps → described b ps →
  pathMap b !! currentPath c = Some (parentId c) →
  count_sep "/" part = 0 →
  described (register b (parentId c) (extend (currentPath c) part) part isLast)
            (ps ++ [extend (currentPath c) part]).
Proof.
  intros Hwf Hd Hc Hpart i p Hi.
  pose proof (wf_links_length _ _ Hwf) as Hll.
  pose proof (wf_nodes_length _ _ Hwf) as Hnl.
  cbn [register b_nodes b_links].
  apply lookup_app_Some in Hi as [Hi|[Hge Hi]].
  - destruct (Hd i p Hi) as (q & part' & last' & j & -> & Hp' & Hq & Hj & Hn & Hl).
    exists q, part', last', j. repeat split; try done.
    + rewrite app_comm_cons. by apply lookup_app_l_Some.
    + by apply lookup_app_l_Some.
    + by apply lookup_app_l_Some.
  - apply list_lookup_singleton_Some in Hi as [Hi <-].
    assert (i = length ps) as -> by lia.
    apply (wf_lookup _ _ Hwf) in Hc as (j & Hj & Hpid).
    exists (currentPath c), part, isLast, j. repeat split; try done.
    + rewrite app_comm_cons. by apply lookup_app_l_Some.
    + apply lookup_lt_Some in Hj. simpl in Hj. lia.
    + rewrite lookup_app_r by lia. rewrite Hnl, Nat.sub_diag.
      by rewrite (wf_counter _ _ Hwf).
    + rewrite lookup_app_r by lia. rewrite Hll, Nat.sub_diag.
      by rewrite (wf_counter _ _ Hwf), Hpid.
Qed.

Lemma visit_part_described len b c ps part index b' c' :
  wf b ps → described b ps →
  pathMap b !! currentPath c = Some (parentId c) →
  count_sep "/" part = 0 →
  visit_part len (b, c) part index = Some (b', c') →
  described b' (seen_add ps (extend (currentPath c) part)).
Proof.
  intros Hwf Hd Hc Hpart Hstep. unfold seen_add.
  pose proof (wf_lookup_mem _ _ (extend (currentPath c) part) Hwf) as Hmem.
  destruct (pathMap b !! extend (currentPath c) part) as [pid|] eqn:Hcur.
  - rewrite (visit_part_known _ _ _ _ _ _ Hcur) in Hstep.
    injection Hstep as <- <-. rewrite decide_True; [done|]. by apply Hmem.
  - rewrite (visit_part_fresh _ _ _ _ _ Hcur) in Hstep.
    injection Hstep as <- <-.
    rewrite decide_False; [by apply described_register|].
    rewrite <-Hmem. by intros [??].
Qed.

Lemma visit_parts_described len parts : ∀ index b c ps b' c',
  wf b ps → described b ps →
  pathMap b !! currentPath c = Some (parentId c) →
  Forall (λ part, count_sep "/" part = 0) parts →
  JS.forEach_from (visit_part len) index parts (b, c) = Some (b', c') →
  described b' (foldl seen_add ps (prefixes_from (currentPath c) parts)).
Proof.
  induction parts as [|part parts IH];
    intros index b c ps b' c' Hwf Hd Hc Hparts Hrun.
  - by injection Hrun as <- <-.
  - apply Forall_cons in Hparts as [Hpart Hparts].
    destruct (visit_part_wf len b c ps part index Hwf Hc)
      as (b1 & pid & Hstep & Hwf1 & Hpid).
    cbn [JS.forEach_from] in Hrun. rewrite Hstep in Hrun. simpl in Hrun.
    eapply (IH (S index) b1
              {| currentPath := extend (currentPath c) part; parentId := pid |});
      [done| |done|done|done].
    by eapply visit_part_described.
Qed.

Lemma visit_file_described b ps f index b' :
  wf b ps → described b ps → visit_file b f index = Some b' →
  described b' (foldl seen_add ps (entry_prefixes f)).
Proof.
  intros Hwf Hd Hrun. unfold visit_file, JS.forEach in Hrun.
  destruct (JS.forEach_from _ _ _ _) as [[b1 c1]|] eqn:Hloop; [|done].
  injection Hrun as <-.
  eapply (visit_parts_described _ _ 0 b
            {| currentPath := ""; parentId := "root" |}); [done|done| | |done].
  - by eapply wf_lookup_root.
  - apply split_tokens.
Qed.

Lemma visit_files_described files : ∀ index b ps b',
  wf b ps → described b ps →
  JS.forEach_from visit_file index files b = Some b' →
  described b' (foldl seen_add ps (all_prefixes files)).
Proof.
  induction files as [|f files IH]; intros index b ps b' Hwf Hd Hrun.
  - by injection Hrun as <-.
  - destruct (visit_file_wf b ps f index Hwf) as (b1 & Hstep & Hwf1).
    cbn [JS.forEach_from] in Hrun. rewrite Hstep in Hrun. simpl in Hrun.
    unfold all_prefixes. rewrite fmap_cons. simpl. rewrite foldl_app.
    eapply IH; [done| |done]. by eapply visit_file_described.
Qed.

Lemma build_described tree b :
  build tree = Some b →
  described b (first_seen (all_prefixes (take 100 tree))).
Proof.
  intros Hb. eapply visit_files_described; [apply wf_initial| |exact Hb].
  apply described_initial.
Qed.

Lemma build_wf_described tree :
  ∃ b, build tree = Some b ∧ generateGraphFromTree tree = Some (graph_of b) ∧
       wf b (first_seen (all_prefixes (take 100 tree))) ∧
       described b (first_seen (all_prefixes (take 100 tree))).
Proof.
  destruct (build_wf tree) as (b & Hb & Hwf). exists b.
  split; [done|]. split; [by apply generateGraphFromTree_build|].
  split; [done|]. by apply build_described.
Qed.

Lemma append_slash q part : q +:+ "/" +:+ part = q +:+ String "/" part.
Proof. reflexivity. Qed.

Lemma pop_split_extend q part :
  count_sep "/" part = 0 → JS.pop (JS.split "/" (extend q part)) = Some part.
Proof.
  intros Hpart. unfold extend, JS.pop. destruct (JS.truthy q).
  - by rewrite append_slash, split_app, last_app, (split_no_sep _ _ Hpart).
  - by rewrite (split_no_sep _ _ Hpart).
Qed.

Lemma group_of_range isLast part : (1 ≤ group_of isLast part ≤ 5)%Z.
Proof.
  unfold group_of. destruct isLast; [|lia].
  repeat case_match; lia.
Qed.

Lemma foldl_seen_add_length l : ∀ ps,
  length (foldl seen_add ps l) ≤ length ps + length l.
Proof.
  induction l as [|p l IH]; intros ps; simpl; [lia|].
  etrans; [apply IH|]. unfold seen_add. case_decide; [lia|].
  rewrite length_app. simpl. lia.
Qed.

Lemma prefixes_from_length parts : ∀ cur,
  length (prefixes_from cur parts) = length parts.
Proof. induction parts as [|p parts IH]; intros cur; simpl; [done|]. by rewrite IH. Qed.

Lemma all_prefixes_length tree :
  length (all_prefixes tree) = segment_count tree.
Proof.
  unfold all_prefixes, segment_count. induction tree as [|f tree IH]; [done|].
  rewrite !fmap_cons. simpl. rewrite length_app, IH. f_equal.
  unfold entry_prefixes. by rewrite prefixes_from_length, split_length.
Qed.

(** X1: the graph has one edge per node other than the root, and every
    edge has weight 1. *)
Theorem graph_edge_count (tree : list RepoFileTree) :
  ∃ g, generateGraphFromTree tree = Some g ∧
       S (length (links g)) = length (nodes g) ∧
       Forall (λ e, value e = 1%Z) (links g).
Proof.
  destruct (build_wf_described tree) as (b & _ & Hg & Hwf & Hd).
  exists (graph_of b). split; [done|]. simpl. split.
  - by rewrite (wf_links_length _ _ Hwf), (wf_nodes_length _ _ Hwf).
  - apply Forall_forall. intros e [i Hi]%list_elem_of_lookup.
    destruct (wf_link _ _ _ _ Hwf Hi) as (Hlt & _).
    destruct (lookup_lt_is_Some_2 _ i Hlt) as [p Hp].
    destruct (Hd i p Hp) as (q & part & isLast & j & _ & _ & _ & _ & _ & Hl).
    rewrite Hi in Hl. by injection Hl as ->.
Qed.

(** X2: the number of nodes is one more than the number of distinct
    non-empty cumulative prefixes of the first 100 entries, hence at most
    one more than the number of segments of those entries. *)
Theorem graph_node_count (tree : list RepoFileTree) :
  ∃ g, generateGraphFromTree tree = Some g ∧
       length (nodes g)
       = S (length (first_seen (all_prefixes (take 100 tree)))) ∧
       length (nodes g) ≤ S (segment_count (take 100 tree)).
Proof.
  destruct (build_wf tree) as (b & Hb & Hwf).
  exists (graph_of b). split; [by apply generateGraphFromTree_build|].
  simpl. rewrite (wf_nodes_length _ _ Hwf). split; [done|].
  apply le_n_S. unfold first_seen.
  etrans; [apply foldl_seen_add_length|].
  by rewrite all_prefixes_length.
Qed.

(** X3: the label of every node other than the root is the last
    ['/']-separated token of the prefix the node is registered for; it
    holds no ['/']. *)
Theorem graph_labels (tree : list RepoFileTree) :
  ∃ b, build tree = Some b ∧
       generateGraphFromTree tree = Some (graph_of b) ∧
       Forall (λ n, id n = "root" ∨
                    ∃ p, p ≠ "" ∧ pathMap b !! p = Some (id n) ∧
                         JS.pop (JS.split "/" p) = Some (label n) ∧
                         count_sep "/" (label n) = 0)
              (b_nodes b).
Proof.
  destruct (build_wf_described tree) as (b & Hb & Hg & Hwf & Hd).
  exists b. split; [done|]. split; [done|].
  apply Forall_forall. intros n [k Hk]%list_elem_of_lookup.
  destruct k as [|i].
  - left. pose proof (wf_root _ _ Hwf) as Hr.
    destruct (b_nodes b); simplify_eq/=. done.
  - right. assert (i < length (first_seen (all_prefixes (take 100 tree)))) as Hlt.
    { apply lookup_lt_Some in Hk. rewrite (wf_nodes_length _ _ Hwf) in Hk. lia. }
    destruct (lookup_lt_is_Some_2 _ i Hlt) as [p Hp].
    destruct (Hd i p Hp) as (q & part & isLast & j & -> & Hpart & _ & _ & Hn & _).
    rewrite Hk in Hn. injection Hn as ->. simpl.
    exists (extend q part). split; [|split; [|split]].
    + intros Hempty. rewrite Hempty in Hp.
      apply list_elem_of_lookup_2 in Hp.
      pose proof (wf_nodup _ _ Hwf) as Hnd. by apply NoDup_cons_1_1 in Hnd.
    + apply (wf_lookup _ _ Hwf). by exists (S i).
    + by apply pop_split_extend.
    + done.
Qed.

(** X4: every edge runs from the node of a registered prefix [q] to the
    node of [q] extended by one segment: edges follow containment. *)
Theorem graph_edges_follow_prefixes (tree : list RepoFileTree) :
  ∃ b, build tree = Some b ∧
       generateGraphFromTree tree = Some (graph_of b) ∧
       Forall (λ e, ∃ q part,
                 count_sep "/" part = 0 ∧
                 pathMap b !! q = Some (source e) ∧
                 pathMap b !! extend q part = Some (target e))
              (b_links b).
Proof.
  destruct (build_wf_described tree) as (b & Hb & Hg & Hwf & Hd).
  exists b. split; [done|]. split; [done|].
  apply Forall_forall. intros e [i Hi]%list_elem_of_lookup.
  destruct (wf_link _ _ _ _ Hwf Hi) as (Hlt & _).
  destruct (lookup_lt_is_Some_2 _ i Hlt) as [p Hp].
  destruct (Hd i p Hp) as (q & part & isLast & j & -> & Hpart & Hq & _ & _ & Hl).
  rewrite Hi in Hl. injection Hl as ->. simpl.
  exists q, part. split; [done|]. split.
  - apply (wf_lookup _ _ Hwf). by exists j.
  - apply (wf_lookup _ _ Hwf). by exists (S i).
Qed.

(** X5: the root is the only node of group 0; every other node has group
    5 or the group its own label gets as a file name, a number from 1
    to 5. *)
Theorem graph_groups (tree : list RepoFileTree) :
  ∃ g, generateGraphFromTree tree = Some g ∧
       Forall (λ n, (id n = "root" ∧ group n = 0%Z) ∨
                    (id n ≠ "root" ∧ (1 ≤ group n ≤ 5)%Z ∧
                     (group n = 5%Z ∨ group n = group_of true (label n))))
              (nodes g).
Proof.
  destruct (build_wf_described tree) as (b & Hb & Hg & Hwf & Hd).
  exists (graph_of b). split; [done|]. simpl.
  apply Forall_forall. intros n [k Hk]%list_elem_of_lookup.
  destruct k as [|i].
  - left. pose proof (wf_root _ _ Hwf) as Hr.
    destruct (b_nodes b); simplify_eq/=. done.
  - right. assert (i < length (first_seen (all_prefixes (take 100 tree)))) as Hlt.
    { apply lookup_lt_Some in Hk. rewrite (wf_nodes_length _ _ Hwf) in Hk. lia. }
    destruct (lookup_lt_is_Some_2 _ i Hlt) as [p Hp].
    destruct (Hd i p Hp) as (q & part & isLast & j & _ & _ & _ & _ & Hn & _).
    rewrite Hk in Hn. injection Hn as ->. simpl.
    split; [apply node_id_not_root|]. split; [apply group_of_range|].
    destruct isLast; [by right|by left].
Qed.

(** ** Folder nodes have children *)

Lemma count_sep_app sep a b :
  count_sep sep (a +:+ b) = count_sep sep a + count_sep sep b.
Proof.
  induction a as [|c a IH]; [done|].
  change (String c a +:+ b) with (String c (a +:+ b)). simpl. rewrite IH. lia.
Qed.

Lemma app_sep_inj sep a a' b b' :
  count_sep sep b = 0 → count_sep sep b' = 0 →
  a +:+ String sep b = a' +:+ String sep b' → a = a' ∧ b = b'.
Proof.
  intros Hb Hb'. revert a'. induction a as [|c a IH]; intros [|c' a'] Heq.
  - by injection Heq as ->.
  - change (String sep b = String c' (a' +:+ String sep b')) in Heq.
    injection Heq as <- ->. rewrite count_sep_app in Hb. simpl in Hb.
    rewrite decide_True in Hb by done. lia.
  - change (String c (a +:+ String sep b) = String sep b') in Heq.
    injection Heq as -> <-. rewrite count_sep_app in Hb'. simpl in Hb'.
    rewrite decide_True in Hb' by done. lia.
  - change (String c (a +:+ String sep b) = String c' (a' +:+ String sep b'))
      in Heq.
    injection Heq as -> Heq. destruct (IH _ Heq) as [-> ->]. done.
Qed.

(** A prefix below a non-empty prefix determines it. *)
Lemma extend_inj q q' part part' :
  q ≠ "" → count_sep "/" part = 0 → count_sep "/" part' = 0 →
  extend q part = extend q' part' → q = q' ∧ part = part'.
Proof.
  intros Hq Hpart Hpart'. unfold extend.
  destruct q as [|c q]; [done|]. cbn [JS.truthy]. rewrite !append_slash.
  destruct q' as [|c' q']; cbn [JS.truthy].
  - intros Heq. rewrite <-Heq, count_sep_app in Hpart'. simpl in Hpart'. lia.
  - rewrite ?append_slash. by apply app_sep_inj.
Qed.

Lemma wf_root_node b ps n :
  wf b ps → n ∈ b_nodes b → id n = "root" → n = root_node.
Proof.
  intros Hwf [k Hk]%list_elem_of_lookup Hid.
  assert ((id <$> b_nodes b) !! k = Some (id n)) as Hik
    by (by rewrite list_lookup_fmap, Hk).
  rewrite (wf_ids _ _ Hwf), list_lookup_fmap in Hik.
  destruct (seq 0 _ !! k) as [k'|] eqn:Hseq; [|done].
  apply lookup_seq in Hseq as [-> _]. simpl in Hik.
  injection Hik as Hik. rewrite Hid in Hik.
  apply nid_root in Hik as ->.
  pose proof (wf_root _ _ Hwf) as Hr. destruct (b_nodes b); simplify_eq/=. done.
Qed.

Lemma folders_filled_weaken b pending :
  folders_filled b None → folders_filled b pending.
Proof. intros H n Hn Hg. destruct (H n Hn Hg) as [?|?]; [by left|done]. Qed.

Lemma group_of_last_not_folder part : group_of true part ≠ 5%Z.
Proof. unfold group_of. repeat case_match; lia. Qed.

(** When a prefix below the cursor is registered, the node of the cursor
    has a child. *)
Lemma registered_child b ps c part pid :
  wf b ps → described b ps →
  pathMap b !! currentPath c = Some (parentId c) →
  currentPath c ≠ "" → count_sep "/" part = 0 →
  pathMap b !! extend (currentPath c) part = Some pid →
  has_child b (parentId c).
Proof.
  intros Hwf Hd Hc Hne Hpart Hnext.
  apply (wf_lookup _ _ Hwf) in Hnext as (k & Hk & _).
  destruct k as [|i].
  { simpl in Hk. injection Hk as Hk. unfold extend in Hk.
    destruct (currentPath c) as [|a s]; [done|]. cbn [JS.truthy] in Hk.
    by rewrite append_slash in Hk. }
  simpl in Hk.
  destruct (Hd i _ Hk) as (q & part' & isLast & j & Heq & Hpart' & Hq & _ & _ & Hl).
  apply extend_inj in Heq as [<- <-]; [|done..].
  apply (wf_lookup _ _ Hwf) in Hc as (j' & Hj' & Hpid).
  assert (j = j') as <-.
  { eapply NoDup_lookup; [apply (wf_nodup _ _ Hwf)|done..]. }
  eexists. split; [by eapply list_elem_of_lookup_2|]. by rewrite Hpid.
Qed.

Lemma visit_part_folders len b c ps part index b' c' :
  wf b ps → described b ps →
  pathMap b !! currentPath c = Some (parentId c) →
  count_sep "/" part = 0 →
  folders_filled b (Some (parentId c)) →
  visit_part len (b, c) part index = Some (b', c') →
  folders_filled b'
    (if bool_decide (index = len - 1) then None else Some (parentId c')).
Proof.
  intros Hwf Hd Hc Hpart Hf Hstep.
  destruct (pathMap b !! extend (currentPath c) part) as [pid|] eqn:Hcur.
  - rewrite (visit_part_known _ _ _ _ _ _ Hcur) in Hstep.
    injection Hstep as <- <-. apply folders_filled_weaken.
    intros n Hn Hg. left. destruct (Hf n Hn Hg) as [?|[= Hid]]; [done|].
    rewrite <-Hid. destruct (decide (currentPath c = "")) as [Hempty|Hne].
    + rewrite Hempty, (wf_lookup_root _ _ Hwf) in Hc. injection Hc as Hc.
      rewrite <-Hc in Hid. symmetry in Hid.
      apply (wf_root_node _ _ _ Hwf Hn) in Hid. by subst n.
    + by eapply registered_child.
  - rewrite (visit_part_fresh _ _ _ _ _ Hcur) in Hstep.
    injection Hstep as <- <-. cbn [parentId].
    intros n Hn Hg. cbn [register b_nodes] in Hn.
    apply elem_of_app in Hn as [Hn|Hn%list_elem_of_singleton].
    + left. destruct (Hf n Hn Hg) as [(e & He & Hs)|[= Hid]].
      * exists e. split; [|done]. cbn [register b_links].
        apply elem_of_app. by left.
      * eexists. split.
        -- cbn [register b_links]. apply elem_of_app. right.
           by apply list_elem_of_singleton.
        -- done.
    + subst n. cbn [group id] in *.
      destruct (bool_decide (index = len - 1)); [|by right].
      by apply group_of_last_not_folder in Hg.
Qed.

Lemma visit_parts_folders len parts : ∀ index b c ps b' c',
  index + length parts = len →
  wf b ps → described b ps →
  pathMap b !! currentPath c = Some (parentId c) →
  Forall (λ part, count_sep "/" part = 0) parts →
  folders_filled b (match parts with [] => None | _ => Some (parentId c) end) →
  JS.forEach_from (visit_part len) index parts (b, c) = Some (b', c') →
  folders_filled b' None.
Proof.
  induction parts as [|part parts IH];
    intros index b c ps b' c' Hlen Hwf Hd Hc Hparts Hf Hrun.
  - by injection Hrun as <- <-.
  - apply Forall_cons in Hparts as [Hpart Hparts].
    destruct (visit_part_wf len b c ps part index Hwf Hc)
      as (b1 & pid & Hstep & Hwf1 & Hpid).
    pose proof (visit_part_described _ _ _ _ _ _ _ _ Hwf Hd Hc Hpart Hstep) as Hd1.
    pose proof (visit_part_folders _ _ _ _ _ _ _ _ Hwf Hd Hc Hpart Hf Hstep) as Hf1.
    cbn [JS.forEach_from] in Hrun. rewrite Hstep in Hrun. simpl in Hrun.
    simpl in Hlen.
    eapply (IH (S index) b1
              {| currentPath := extend (currentPath c) part; parentId := pid |});
      [lia|done|done|done|done| |done].
    cbn [parentId] in *. destruct parts as [|part' parts].
    + simpl in Hlen. by rewrite bool_decide_eq_true_2 in Hf1 by lia.
    + simpl in Hlen. by rewrite bool_decide_eq_false_2 in Hf1 by lia.
Qed.

Lemma visit_file_folders b ps f index b' :
  wf b ps → described b ps → folders_filled b None →
  visit_file b f index = Some b' → folders_filled b' None.
Proof.
  intros Hwf Hd Hf Hrun. unfold visit_file, JS.forEach in Hrun.
  destruct (JS.forEach_from _ _ _ _) as [[b1 c1]|] eqn:Hloop; [|done].
  injection Hrun as <-.
  eapply (visit_parts_folders _ _ 0 b
            {| currentPath := ""; parentId := "root" |});
    [done|done|done| | | |done].
  - by eapply wf_lookup_root.
  - apply split_tokens.
  - by apply folders_filled_weaken.
Qed.

Lemma visit_files_folders files : ∀ index b ps b',
  wf b ps → described b ps → folders_filled b None →
  JS.forEach_from visit_file index files b = Some b' →
  folders_filled b' None.
Proof.
  induction files as [|f files IH]; intros index b ps b' Hwf Hd Hf Hrun.
  - by injection Hrun as <-.
  - destruct (visit_file_wf b ps f index Hwf) as (b1 & Hstep & Hwf1).
    cbn [JS.forEach_from] in Hrun. rewrite Hstep in Hrun. simpl in Hrun.
    eapply (IH _ b1); [exact Hwf1| | |done].
    + by eapply visit_file_described.
    + exact (visit_file_folders _ _ _ _ _ Hwf Hd Hf Hstep).
Qed.

(** X6: every node of group 5 has at least one outgoing edge: a folder
    node is never a leaf. *)
Theorem graph_folders_have_children (tree : list RepoFileTree) :
  ∃ g, generateGraphFromTree tree = Some g ∧
       Forall (λ n, group n = 5%Z → ∃ e, e ∈ links g ∧ source e = id n)
              (nodes g).
Proof.
  destruct (build_wf tree) as (b & Hb & _).
  exists (graph_of b). split; [by apply generateGraphFromTree_build|].
  assert (folders_filled b None) as Hf.
  { eapply visit_files_folders;
      [apply wf_initial|apply described_initial| |exact Hb].
    intros n [->|[]%elem_of_nil]%elem_of_cons; done. }
  apply Forall_forall. intros n Hn Hg.
  by destruct (Hf n Hn Hg) as [?|?].
Qed.

Lemma graph_folders_have_children_witness :
  ∃ g e, generateGraphFromTree [file "src/a.ts"] = Some g ∧
         e ∈ links g ∧ source e = "node_1".
Proof.
  destruct (graph_folders_have_children [file "src/a.ts"]) as (g & Hg & Hall).
  rewrite Forall_forall in Hall.
  assert (g = {| nodes := [root_node;
                           {| id := "node_1"; group := 5; label := "src" |};
                           {| id := "node_2"; group := 2; label := "a.ts" |}];
                 links := [{| source := "root"; target := "node_1"; value := 1 |};
                           {| source := "node_1"; target := "node_2";
                              value := 1 |}] |}) as Heq.
  { vm_compute in Hg. by injection Hg as <-. }
  destruct (Hall {| id := "node_1"; group := 5; label := "src" |})
    as (e & He & Hs).
  - rewrite Heq. cbn [nodes]. apply elem_of_cons. right.
    apply elem_of_cons. by left.
  - reflexivity.
  - exists g, e. by rewrite Hg.
Defined.

(** ** What [parseRepoInput] hands to the services *)


(** X7: whenever [parseRepoInput] returns a pair, both parts are
    non-empty and hold no ['/']. *)
Theorem parseRepoInput_parts (URL_new : string → option URL)
    (trim : string → string) (input : string) (d : RepoDetails) :
  parseRepoInput URL_new trim input = Some d →
  owner d ≠ "" ∧ repo d ≠ "" ∧
  count_sep "/" (owner d) = 0 ∧ count_sep "/" (repo d) = 0.
Proof.
  unfold parseRepoInput. intros Hp.
  destruct (parse_url _ _) as [d0|] eqn:Hu.
  - injection Hp as ->. apply parse_url_spec in Hu as (url & rest & _ & _ & Hf).
    assert (∀ x, x ∈ owner d :: repo d :: rest →
                 x ≠ "" ∧ count_sep "/" x = 0) as Hall.
    { intros x Hx. rewrite <-Hf in Hx.
      apply list_elem_of_filter in Hx as [Hne Hx]. split; [done|].
      pose proof (split_tokens "/" (pathname url)) as Htok.
      rewrite Forall_forall in Htok. by apply Htok. }
    destruct (Hall (owner d)) as [??]; [set_solver|].
    destruct (Hall (repo d)) as [??]; [set_solver|]. done.
  - apply parse_bare_spec in Hp as (_ & ? & ? & ? & ?). done.
Qed.

Lemma parseRepoInput_parts_witness :
  owner {| owner := "octocat"; repo := "hello" |} ≠ "" ∧
  repo {| owner := "octocat"; repo := "hello" |} ≠ "" ∧
  count_sep "/" (owner {| owner := "octocat"; repo := "hello" |}) = 0 ∧
  count_sep "/" (repo {| owner := "octocat"; repo := "hello" |}) = 0.
Proof.
  apply (parseRepoInput_parts one_url (λ s, s)
           "https://github.com/octocat/hello/tree/main/").
  vm_compute. reflexivity.
Defined.

(** ** Behaviour of the handlers *)

Section ComponentFacts.

Variable Date : Type.
Variable URL_new : string → option URL.
Variable trim : string → string.
Variable fetchRepoFileTree : string → string → Result (list RepoFileTree).
Variable generateInfographic :
  string → list RepoFileTree → string → bool → string → Result (option string).
Variable confirm : string → bool.
Variable date_now : string.
Variable new_date : Date.

#[local] Abbreviation handleAnalyze' :=
  (handleAnalyze Date URL_new trim fetchRepoFileTree generateInfographic
     confirm date_now new_date).
#[local] Abbreviation analyze' :=
  (analyze Date fetchRepoFileTree generateInfographic confirm date_now
     new_date).
#[local] Abbreviation handleGenerate3D' :=
  (handleGenerate3D Date generateInfographic confirm date_now new_date).
#[local] Abbreviation handleApiError' := (handleApiError Date confirm).

Lemma handleApiError_state err st :
  ∃ msg, msg ≠ "" ∧
    (handleApiError' err st).1 = setError (Some msg) st ∧
    ∀ item, AddToHistory Date item ∉ (handleApiError' err st).2.
Proof.
  unfold handleApiError. cbn [fst snd].
  exists (if truthy_opt (message err) then default "" (message err)
          else "An unexpected error occurred during analysis.").
  split; [|split; [done|]].
  - destruct (message err) as [[|??]|]; done.
  - intros item. repeat case_match; set_solver.
Qed.







(** X12: after an item of the history has been loaded, the Dev Studio
    button and the 3D button do nothing: the file tree is not restored. *)
Theorem history_item_has_no_file_tree (item : RepoHistoryItem Date)
    (st : AnalyzerState) :
  let st' := (loadFromHistory Date item st).1 in
  currentFileTree st' = None ∧
  launchDevStudio Date st' = Some [] ∧
  handleGenerate3D' st' = (st', []).
Proof.
  unfold loadFromHistory, launchDevStudio, handleGenerate3D.
  destruct (is3D Date item); done.
Qed.



(** X14: 3D generation leaves the 2D image, the file tree, the
    repository name and [loading] alone and ends with [generating3D] off
    unless it returned at once; it either stores a new 3D image and hands
    one 3D item to [onAddToHistory], or keeps the old 3D image and hands
    over nothing. *)
Theorem handleGenerate3D_outcome (st : AnalyzerState) :
  let st' := (handleGenerate3D' st).1 in
  let effects := (handleGenerate3D' st).2 in
  infographicData st' = infographicData st ∧
  currentFileTree st' = currentFileTree st ∧
  currentRepoName st' = currentRepoName st ∧
  loading st' = loading st ∧
  (generating3D st' = false ∨ (st' = st ∧ effects = [])) ∧
  ((∃ data, data ≠ "" ∧ infographic3DData st' = Some data ∧
            error st' = error st ∧
            effects = [AddToHistory Date
                         {| item_id := date_now;
                            item_repoName := currentRepoName st;
                            imageData := data; is3D := true;
                            style := styleToUse st; date := new_date |}]) ∨
   (infographic3DData st' = infographic3DData st ∧
    ∀ item, AddToHistory Date item ∉ effects)).
Proof.
  unfold handleGenerate3D.
  destruct (currentFileTree st) as [tree|] eqn:Htree.
  2:{ cbn. rewrite Htree. repeat split; try done; [by right|]. right. set_solver. }
  destruct (JS.truthy (currentRepoName st)) eqn:Hname; cbn [negb].
  2:{ cbn. rewrite Htree. repeat split; try done; [by right|]. right. set_solver. }
  destruct (generateInfographic _ _ _ _ _) as [[[|a data]|]|err] eqn:Hgen;
    cbn [truthy_opt JS.truthy].
  - cbn. rewrite Htree. repeat split; try done; [by left|]. right. set_solver.
  - cbn. rewrite Htree. repeat split; try done; [by left|]. left.
    by exists (String a data).
  - cbn. rewrite Htree. repeat split; try done; [by left|]. right. set_solver.
  - destruct (handleApiError_state err (setGenerating3D true st))
      as (msg & _ & Hst & Hno).
    destruct (handleApiError' err (setGenerating3D true st)) as [st2 eff] eqn:Hh.
    cbn [fst snd] in *. subst st2. cbn. rewrite Htree.
    repeat split; try done; [by left|]. by right.
Qed.

Lemma handleApiError_effects err st :
  (handleApiError' err st).2 = [] ∨ (handleApiError' err st).2 = [Reload Date].
Proof. unfold handleApiError. cbn [snd]. repeat case_match; auto. Qed.

Lemma analyze_effects d st :
  (analyze' d st).2 = [] ∨ (analyze' d st).2 = [Reload Date] ∨
  ∃ item, (analyze' d st).2 = [AddToHistory Date item].
Proof.
  unfold analyze.
  repeat case_match;
    try (match goal with |- context [handleApiError' ?e ?s] =>
           destruct (handleApiError_effects e s) as [->| ->] end; auto).
  right. right. by eexists.
Qed.

Lemma handleGenerate3D_effects st :
  (handleGenerate3D' st).2 = [] ∨ (handleGenerate3D' st).2 = [Reload Date] ∨
  ∃ item, (handleGenerate3D' st).2 = [AddToHistory Date item].
Proof.
  unfold handleGenerate3D.
  destruct (currentFileTree st) as [tree|]; [|by left].
  destruct (negb _); [by left|].
  destruct (generateInfographic _ _ _ _ _) as [data|err].
  - destruct (truthy_opt data); cbn [snd]; [|by left].
    right. right. by eexists.
  - destruct (handleApiError_effects err (setGenerating3D true st)) as [H|H];
      destruct (handleApiError' err (setGenerating3D true st)) as [st2 eff];
      cbn [snd] in *; subst; auto.
Qed.

Lemma app_effects_quiet (effects : list (Effect Date)) (app : AppState Date) :
  effects = [] ∨ effects = [Reload Date] ∨
  (∃ item, effects = [AddToHistory Date item]) →
  Forall (λ effects,
            let app' := app_effects Date effects app in
            currentView Date app' = currentView Date app ∧
            devStudioData Date app' = devStudioData Date app ∧
            ∃ new, repoHistory Date app' = new ++ repoHistory Date app ∧
                   length new ≤ 1)
         [effects; PreventDefault Date :: effects].
Proof.
  intros [->|[->|[item ->]]];
    (constructor; [|constructor; [|constructor]]); cbn;
    (split; [done|split; [done|]]).
  1-4: exists []; split; [done|simpl; lia].
  1-2: exists [item]; split; [done|simpl; lia].
Qed.

(** X15: whatever an analysis or a 3D generation hands to [App] never
    changes the view or the Dev Studio payload; the history gets at most
    one item, put in front of the older ones. *)
Theorem handlers_only_prepend_history (st : AnalyzerState)
    (app : AppState Date) :
  Forall (λ effects,
            let app' := app_effects Date effects app in
            currentView Date app' = currentView Date app ∧
            devStudioData Date app' = devStudioData Date app ∧
            ∃ new, repoHistory Date app' = new ++ repoHistory Date app ∧
                   length new ≤ 1)
         [(handleAnalyze' st).2; (handleGenerate3D' st).2].
Proof.
  constructor; [|constructor; [|constructor]].
  - unfold handleAnalyze.
    destruct (parseRepoInput _ _ _) as [d|]; cbn [snd].
    + match goal with |- context [analyze' d ?s] =>
        pose proof (app_effects_quiet _ app (analyze_effects d s)) as Hq;
        destruct (analyze' d s) as [st1 effects] end.
      cbn [snd] in *. by apply Forall_cons in Hq as [_ [Hq _]%Forall_cons].
    + cbn. repeat split; try done. exists []. split; [done|simpl; lia].
  - pose proof (app_effects_quiet _ app (handleGenerate3D_effects st)) as Hq.
    by apply Forall_cons in Hq as [Hq _].
Qed.

End ComponentFacts.

(** ** The handlers in a small world *)

(** The state [RepoAnalyzer] starts in, with the given text typed in. *)
Definition typed (input : string) : AnalyzerState :=
  {| repoInput := input; selectedStyle := "Modern Data Flow";
     selectedLanguage := "English"; customStyle := ""; loading := false;
     error := None; loadingStage := ""; infographicData := None;
     infographic3DData := None; generating3D := false;
     currentFileTree := None; currentRepoName := "" |}.

(** A world whose repositories hold the given files and whose image
    service answers with the given value. *)
Definition run_analyze (files : list RepoFileTree) (image : option string)
    (input : string) : AnalyzerState * list (Effect unit) :=
  handleAnalyze unit one_url (λ s, s) (λ _ _, Ok files)
    (λ _ _ _ _ _, Ok image) (λ _, false) "1700000000000" () (typed input).





Example handleAnalyze_runs :
  run_analyze [file "src/index.ts"] (Some "iVBOR")
    "https://github.com/octocat/hello/tree/main/"
  = ({| repoInput := "https://github.com/octocat/hello/tree/main/";
        selectedStyle := "Modern Data Flow"; selectedLanguage := "English";
        customStyle := ""; loading := false; error := None;
        loadingStage := ""; infographicData := Some "iVBOR";
        infographic3DData := None; generating3D := false;
        currentFileTree := Some [file "src/index.ts"];
        currentRepoName := "hello" |},
     [PreventDefault unit;
      AddToHistory unit
        {| item_id := "1700000000000"; item_repoName := "hello";
           imageData := "iVBOR"; is3D := false; style := "Modern Data Flow";
           date := () |}]).
Proof. vm_compute. reflexivity. Qed.

(** ** Counting in insertion order *)

Lemma assoc_bump lang stats l :
  default 0 (assoc l (bump lang stats))
  = default 0 (assoc l stats) + (if decide (l = lang) then 1 else 0).
Proof.
  induction stats as [|[k n] stats IH]; simpl.
  - repeat case_decide; simplify_eq/=; done.
  - repeat (case_decide; simplify_eq/=); try lia; done.
Qed.

Lemma bump_keys lang stats :
  (bump lang stats).*1
  = if decide (lang ∈ stats.*1) then stats.*1 else stats.*1 ++ [lang].
Proof.
  induction stats as [|[k n] stats IH]; cbn [bump].
  - rewrite decide_False; [done|]. apply not_elem_of_nil.
  - destruct (decide (k = lang)) as [->|Hk]; rewrite !fmap_cons; cbn [fst].
    + rewrite decide_True; [done|]. apply elem_of_cons. by left.
    + rewrite IH. destruct (decide (lang ∈ stats.*1)) as [Hin|Hnin].
      * rewrite decide_True; [done|]. apply elem_of_cons. by right.
      * rewrite decide_False; [done|]. by intros [?|?]%elem_of_cons.
Qed.

Lemma bump_nodup lang stats : NoDup stats.*1 → NoDup (bump lang stats).*1.
Proof.
  intros Hnd. rewrite bump_keys. case_decide; [done|].
  apply NoDup_app. split; [done|]. split; [|apply NoDup_singleton].
  by intros x Hx ->%list_elem_of_singleton.
Qed.

Lemma bump_positive lang stats :
  Forall (λ p, 1 ≤ p.2) stats → Forall (λ p, 1 ≤ p.2) (bump lang stats).
Proof.
  induction 1 as [|[k n] stats Hn Hs IH]; cbn [bump].
  - repeat constructor.
  - case_decide; constructor; simpl in *; try done; lia.
Qed.

Lemma assoc_elem {A} (l : list (string * A)) k v :
  NoDup l.*1 → (k, v) ∈ l ↔ assoc k l = Some v.
Proof.
  induction l as [|[k' v'] l IH]; simpl; intros Hnd.
  - split; [by intros ?%elem_of_nil|done].
  - apply NoDup_cons in Hnd as [Hk' Hnd]. rewrite elem_of_cons.
    case_decide as Hk.
    + subst k'. split.
      * intros [[= ->]|Hin]; [done|].
        destruct Hk'. by apply (list_elem_of_fmap_2 fst) in Hin.
      * intros [= ->]. by left.
    + rewrite <-IH by done. split; [|by right].
      intros [[= ??]|?]; [by subst|done].
Qed.

Section TechStackFacts.

Variable toLowerCase : string → string.
Variable Object_source : string.
Variable F : Type.
Variable percent_of : nat → nat → F.

#[local] Abbreviation lang_of' := (lang_of toLowerCase Object_source).
#[local] Abbreviation tally_file' := (tally_file toLowerCase Object_source).
#[local] Abbreviation tally' := (tally toLowerCase Object_source).
#[local] Abbreviation files_of' := (files_of toLowerCase Object_source).
#[local] Abbreviation techStackStats' :=
  (techStackStats toLowerCase Object_source F percent_of).
#[local] Abbreviation beats' := (beats F).
#[local] Abbreviation entry_of' := (entry_of F percent_of).

Lemma tally_fold tree : ∀ acc,
  (∀ l, default 0 (assoc l (foldl tally_file' acc tree).1)
        = default 0 (assoc l acc.1) + files_of' tree l) ∧
  (foldl tally_file' acc tree).2
  = acc.2 + length (filter (λ f, is_Some (lang_of' f)) tree) ∧
  (NoDup acc.1.*1 → NoDup (foldl tally_file' acc tree).1.*1) ∧
  (Forall (λ p, 1 ≤ p.2) acc.1 →
   Forall (λ p, 1 ≤ p.2) (foldl tally_file' acc tree).1).
Proof.
  induction tree as [|f tree IH]; intros acc.
  - simpl. unfold files_of. simpl. repeat split; try done; intros; lia.
  - cbn [foldl]. destruct (IH (tally_file' acc f)) as (Hc & Ht & Hn & Hp).
    unfold files_of in *.
    unfold tally_file in *. destruct (lang_of' f) as [lang|] eqn:Hlang.
    + cbn [fst snd] in *. repeat split.
      * intros l. rewrite Hc, assoc_bump.
        destruct (decide (l = lang)) as [->|Hne].
        -- rewrite filter_cons_True by done. simpl. lia.
        -- rewrite filter_cons_False by congruence. lia.
      * rewrite Ht, filter_cons_True by (rewrite Hlang; by eexists).
        simpl. lia.
      * intros Hnd. by apply Hn, bump_nodup.
      * intros Hpos. by apply Hp, bump_positive.
    + repeat split; try done.
      * intros l. rewrite Hc. by rewrite filter_cons_False by congruence.
      * rewrite Ht, filter_cons_False; [done|]. rewrite Hlang. by intros [??].
Qed.

Lemma insert_desc_perm x l : insert_desc F x l ≡ₚ x :: l.
Proof.
  induction l as [|y l IH]; simpl; [done|].
  case_decide; [done|]. rewrite IH. apply Permutation_swap.
Qed.

Lemma sort_desc_perm l : sort_desc F l ≡ₚ l.
Proof.
  induction l as [|x l IH]; simpl; [done|].
  by rewrite insert_desc_perm, IH.
Qed.

Lemma insert_desc_sorted x l :
  StronglySorted beats' l → StronglySorted beats' (insert_desc F x l).
Proof.
  induction l as [|y l IH]; simpl; intros Hs; [by repeat constructor|].
  apply StronglySorted_cons in Hs as [Hy Hs]. case_decide as Hxy.
  - apply StronglySorted_cons. split; [|by apply StronglySorted_cons].
    constructor; [done|]. eapply Forall_impl; [exact Hy|].
    unfold beats'. intros z Hz. lia.
  - apply StronglySorted_cons. split; [|by apply IH].
    rewrite insert_desc_perm. constructor; [|done]. unfold beats'. lia.
Qed.

Lemma sort_desc_sorted l : StronglySorted beats' (sort_desc F l).
Proof.
  induction l as [|x l IH]; simpl; [constructor|]. by apply insert_desc_sorted.
Qed.

(** The sort is stable: entries with the same count keep their order. *)
Lemma insert_desc_stable k x l :
  StronglySorted beats' l →
  filter (λ e, count F e = k) (insert_desc F x l)
  = filter (λ e, count F e = k) (x :: l).
Proof.
  induction l as [|y l IH]; simpl; intros Hs; [done|].
  apply StronglySorted_cons in Hs as [Hy Hs]. case_decide as Hxy; [done|].
  rewrite (filter_cons _ y), IH, !filter_cons by done.
  repeat case_decide; try done. lia.
Qed.

Lemma sort_desc_stable k l :
  filter (λ e, count F e = k) (sort_desc F l) = filter (λ e, count F e = k) l.
Proof.
  induction l as [|x l IH]; simpl; [done|].
  rewrite insert_desc_stable by apply sort_desc_sorted.
  by rewrite !filter_cons, IH.
Qed.


Lemma techStackStats_Some tree :
  techStackStats' (Some tree)
  = take 5 (sort_desc F (entry_of' (tally' tree).2 <$> (tally' tree).1)).
Proof.
  unfold techStackStats. destruct (tally' tree) as [stats total]. cbn [fst snd].
  do 2 f_equal. apply list_fmap_ext. by intros i [l n] _.
Qed.

Lemma tally_spec tree :
  NoDup (tally' tree).1.*1 ∧
  (∀ l n, (l, n) ∈ (tally' tree).1 ↔ n = files_of' tree l ∧ 1 ≤ n) ∧
  (tally' tree).2 = length (filter (λ f, is_Some (lang_of' f)) tree).
Proof.
  unfold tally. destruct (tally_fold tree ([], 0)) as (Hc & Ht & Hn & Hp).
  cbn [fst snd] in *.
  specialize (Hn (NoDup_nil_2 : NoDup ([] : list (string * nat)).*1)).
  specialize (Hp (Forall_nil_2 _)).
  split; [done|]. split; [|done].
  intros l n. rewrite (assoc_elem _ _ _ Hn). specialize (Hc l). simpl in Hc.
  split.
  - intros Ha. rewrite Ha in Hc. simpl in Hc. split; [done|].
    apply (assoc_elem _ _ _ Hn) in Ha. rewrite Forall_forall in Hp.
    by apply (Hp _ Ha).
  - intros [-> Hpos]. destruct (assoc l _) as [n|]; simpl in Hc; [|lia].
    by rewrite Hc.
Qed.

Lemma entries_langs total (stats : list (string * nat)) :
  lang F <$> (entry_of' total <$> stats) = stats.*1.
Proof. rewrite <-list_fmap_compose. by apply list_fmap_ext. Qed.

Lemma elem_of_stats tree e :
  e ∈ techStackStats' (Some tree) →
  count F e = files_of' tree (lang F e) ∧ 1 ≤ count F e ∧
  percent F e
  = percent_of (count F e) (length (filter (λ f, is_Some (lang_of' f)) tree)).
Proof.
  rewrite techStackStats_Some. intros He%(subseteq_take 5).
  rewrite sort_desc_perm in He.
  apply list_elem_of_fmap in He as ([l n] & -> & Hin).
  destruct (tally_spec tree) as (_ & Hspec & Htotal).
  apply Hspec in Hin as [-> Hpos]. cbn. by rewrite Htotal.
Qed.

(** X16: the tech-stack bar shows at most five languages, none twice, by
    descending file count; without a file tree it shows none. *)
Theorem techStackStats_shape (currentFileTree : option (list RepoFileTree)) :
  length (techStackStats' currentFileTree) ≤ 5 ∧
  StronglySorted beats' (techStackStats' currentFileTree) ∧
  NoDup (lang F <$> techStackStats' currentFileTree) ∧
  techStackStats' None = [].
Proof.
  destruct currentFileTree as [tree|];
    [|repeat split; simpl; try constructor; lia].
  rewrite techStackStats_Some. split; [|split; [|split; [|done]]].
  - rewrite length_take. lia.
  - eapply StronglySorted_app_1_l. rewrite take_drop. apply sort_desc_sorted.
  - rewrite fmap_take. eapply sublist_NoDup; [|apply sublist_take].
    rewrite sort_desc_perm, entries_langs. apply tally_spec.
Qed.

(** X17: the count shown for a language is the number of files of the
    tree counted under it, which is at least one, and its percentage is
    computed from this count and the number of files counted under any
    language (not the number of files of the tree). *)
Theorem techStackStats_counts (tree : list RepoFileTree) :
  Forall (λ e,
            count F e = files_of' tree (lang F e) ∧ 1 ≤ count F e ∧
            percent F e
            = percent_of (count F e)
                (length (filter (λ f, is_Some (lang_of' f)) tree)))
         (techStackStats' (Some tree)).
Proof. apply Forall_forall. intros e He. by apply elem_of_stats. Qed.

(** X18: the five entries are the top five: a language with at least
    one file is shown, or else five languages are shown and each has at
    least as many files. *)
Theorem techStackStats_top (tree : list RepoFileTree) (l : string) :
  1 ≤ files_of' tree l →
  l ∈ lang F <$> techStackStats' (Some tree) ∨
  (length (techStackStats' (Some tree)) = 5 ∧
   Forall (λ e, files_of' tree l ≤ count F e) (techStackStats' (Some tree))).
Proof.
  intros Hl. rewrite techStackStats_Some.
  destruct (tally_spec tree) as (_ & Hspec & _).
  set (all := sort_desc F (entry_of' (tally' tree).2 <$> (tally' tree).1)).
  assert (entry_of' (tally' tree).2 (l, files_of' tree l) ∈ all) as Hin.
  { unfold all. rewrite sort_desc_perm. apply list_elem_of_fmap_2.
    by apply Hspec. }
  rewrite <-(take_drop 5 all) in Hin.
  apply elem_of_app in Hin as [Hin|Hin].
  - left. by apply (list_elem_of_fmap_2 (lang F)) in Hin.
  - right. split.
    + rewrite length_take. apply list_elem_of_lookup in Hin as [i Hi].
      apply lookup_lt_Some in Hi. rewrite length_drop in Hi. lia.
    + apply Forall_forall. intros e He.
      pose proof (sort_desc_sorted (entry_of' (tally' tree).2 <$> (tally' tree).1))
        as Hs.
      fold all in Hs. rewrite <-(take_drop 5 all) in Hs.
      by apply (StronglySorted_app_1_elem_of _ _ _ _ _ Hs He Hin).
Qed.

End TechStackFacts.

Lemma techStackStats_top_witness :
  "TypeScript" ∈ lang (nat * nat) <$>
    techStackStats (λ s, s) "function Object() { [native code] }" (nat * nat)
      (λ count total, (count, total))
      (Some [file "src/a.ts"; file "src/b.tsx"; file "README.md"; file "x.py"]) ∨
  (length (techStackStats (λ s, s) "function Object() { [native code] }" (nat * nat)
             (λ count total, (count, total))
             (Some [file "src/a.ts"; file "src/b.tsx"; file "README.md";
                    file "x.py"])) = 5 ∧
   Forall (λ e, files_of (λ s, s) "function Object() { [native code] }"
                  [file "src/a.ts"; file "src/b.tsx"; file "README.md";
                   file "x.py"] "TypeScript" ≤ count (nat * nat) e)
     (techStackStats (λ s, s) "function Object() { [native code] }" (nat * nat)
        (λ count total, (count, total))
        (Some [file "src/a.ts"; file "src/b.tsx"; file "README.md";
               file "x.py"]))).
Proof.
  apply (techStackStats_top (λ s, s) "function Object() { [native code] }" (nat * nat)
           (λ count total, (count, total))).
  vm_compute. lia.
Defined.

Example techStackStats_runs :
  techStackStats (λ s, s) "function Object() { [native code] }" (nat * nat)
    (λ count total, (count, total))
    (Some [file "src/a.ts"; file "x.py"; file "src/b.tsx"; file "README.md";
           file "lib/y.py"; file "z.go"; file "w.constructor"; file "Makefile"])
  = [{| lang := "TypeScript"; count := 2; percent := (2, 6) |};
     {| lang := "Python"; count := 2; percent := (2, 6) |};
     {| lang := "Go"; count := 1; percent := (1, 6) |};
     {| lang := "function Object() { [native code] }"; count := 1;
        percent := (1, 6) |}].
Proof. vm_compute. reflexivity. Qed.

(** * Reading the answer of the model: facts *)

Section GeminiFacts.

Import Gemini.

Lemma part_image_nonempty p d : part_image p = Some d → d ≠ "".
Proof.
  unfold part_image. destruct (inlineData p) as [[[s|]]|]; simpl; try done.
  destruct s; simpl; [done|]. by intros [= <-].
Qed.

Lemma first_image_head ps : first_image ps = head (omap part_image ps).
Proof.
  induction ps as [|p ps IH]; simpl; [done|].
  by destruct (part_image p).
Qed.

Lemma string_app_assoc (a b c : string) : (a +:+ b) +:+ c = a +:+ b +:+ c.
Proof.
  induction a as [|x a IH]; [done|].
  change (String x ((a +:+ b) +:+ c) = String x (a +:+ b +:+ c)). by rewrite IH.
Qed.

Lemma string_app_empty (a : string) : a +:+ "" = a.
Proof.
  induction a as [|x a IH]; [done|].
  change (String x (a +:+ "") = String x a). by rewrite IH.
Qed.

Lemma article_parts_fold ps : ∀ img sum,
  foldl article_part (img, sum) ps
  = (from_option Some img (last (omap part_image ps)),
     sum +:+ concat_strings (omap part_text ps)).
Proof.
  induction ps as [|p ps IH]; intros img sum; simpl.
  - by rewrite string_app_empty.
  - unfold article_part at 2, part_text. cbn [fst snd].
    destruct (part_image p) as [d|] eqn:Hp; simpl.
    + rewrite IH. f_equal.
      change (list_omap Part string part_image ps) with (omap part_image ps).
      destruct (omap part_image ps) as [|x l] eqn:Ho; [done|].
      rewrite (last_cons d (x :: l)). by destruct (last (x :: l)).
    + destruct (truthy_opt (text p)) eqn:Ht.
      * destruct (text p) as [t|]; [|done]. simpl.
        by rewrite IH, string_app_assoc.
      * by rewrite IH.
Qed.

Lemma article_chunks_fold chunks : ∀ cites,
  foldl article_chunk cites chunks = cites ++ omap chunk_citation chunks.
Proof.
  induction chunks as [|ch chunks IH]; intros cites; simpl.
  - by rewrite app_nil_r.
  - rewrite IH. unfold article_chunk, chunk_citation.
    destruct (web ch); simpl; [|done]. by rewrite <-app_assoc.
Qed.

(** X19: the image returned for a repository infographic is the first
    non-empty inline image among the parts of the first candidate, and
    never the empty string; [null] is returned exactly when that
    candidate has no such part (or there is no candidate, content or
    part list).  Later candidates are never read. *)
Theorem inline_image_first (r : Response) :
  inline_image r
  = head (omap part_image (default [] (response_parts r))) ∧
  (inline_image r = None ↔
   Forall (λ p, part_image p = None) (default [] (response_parts r))) ∧
  inline_image r ≠ Some "" ∧
  (∀ c cs, candidates r = Some (c :: cs) →
           inline_image r = inline_image {| candidates := Some [c] |}).
Proof.
  assert (inline_image r
          = head (omap part_image (default [] (response_parts r)))) as Hhead.
  { unfold inline_image. destruct (response_parts r) as [ps|]; [|done].
    apply first_image_head. }
  split; [done|]. split; [|split].
  - rewrite Hhead. generalize (default [] (response_parts r)). intros ps.
    induction ps as [|p ps IH]; simpl; [by split|].
    destruct (part_image p) eqn:Hp; simpl.
    + split; [done|]. intros [Hp' _]%Forall_cons. congruence.
    + rewrite IH. split; [by constructor|by intros [_ ?]%Forall_cons].
  - rewrite Hhead. intros Hd. apply head_Some in Hd as [l Hl].
    assert (Some "" ∈ Some <$> omap part_image (default [] (response_parts r)))
      as Hin by (rewrite Hl, fmap_cons; apply elem_of_cons; by left).
    apply list_elem_of_fmap in Hin as (d & [= <-] & Hd).
    apply list_elem_of_omap in Hd as (p & _ & Hp).
    by apply part_image_nonempty in Hp.
  - intros c cs Hc. unfold inline_image, response_parts. by rewrite Hc.
Qed.

Lemma inline_image_first_witness :
  inline_image
    {| candidates :=
         Some [{| content := Some {| parts := Some
                    [{| inlineData := None; text := Some "caption" |};
                     {| inlineData := Some {| data := Some "iVBOR" |};
                        text := None |}] |};
                  groundingMetadata := None |};
               {| content := None; groundingMetadata := None |}] |}
  = inline_image
      {| candidates :=
           Some [{| content := Some {| parts := Some
                      [{| inlineData := None; text := Some "caption" |};
                       {| inlineData := Some {| data := Some "iVBOR" |};
                          text := None |}] |};
                    groundingMetadata := None |}] |}.
Proof.
  eapply (proj2 (proj2 (proj2 (inline_image_first _)))). reflexivity.
Defined.

(** X20: for an article, the image kept is the last non-empty inline
    image of the first candidate (where the repository infographic takes
    the first), the summary is the concatenation, in order, of the texts
    of the parts that carry no image, and the citations are the web
    chunks of the first candidate in order. *)
Theorem article_result_parts (r : Response) (c : Candidate)
    (cs : list Candidate) :
  candidates r = Some (c :: cs) →
  let ps := default [] (content c ≫= parts) in
  imageData (article_result r) = last (omap part_image ps) ∧
  inline_image r = head (omap part_image ps) ∧
  summary (article_result r) = concat_strings (omap part_text ps) ∧
  citations (article_result r)
  = omap chunk_citation
      (default [] (groundingMetadata c ≫= groundingChunks)).
Proof.
  intros Hc. cbn zeta. unfold article_result, inline_image, response_parts.
  rewrite Hc. cbn [mbind option_bind head].
  assert (∀ chunks : option (list GroundingChunk),
            match chunks with
            | Some chunks => foldl article_chunk [] chunks
            | None => []
            end = omap chunk_citation (default [] chunks)) as Hcites.
  { intros [chunks|]; [|done]. by rewrite article_chunks_fold. }
  destruct (content c) as [[[ps|]]|]; cbn [parts mbind option_bind default].
  - rewrite article_parts_fold, first_image_head, Hcites.
    cbn [imageData summary citations]. change (default [] (Some ps)) with ps.
    assert (∀ o : option string, from_option Some None o = o) as ->
      by (by intros [|]).
    done.
  - cbn. by rewrite Hcites.
  - cbn. by rewrite Hcites.
Qed.

(** A candidate with two images and a text. *)
Definition two_images : Candidate :=
  {| content := Some {| parts := Some
       [{| inlineData := Some {| data := Some "first" |};
           text := Some "skipped" |};
        {| inlineData := None; text := Some "Brief." |};
        {| inlineData := Some {| data := Some "second" |}; text := None |}] |};
     groundingMetadata := None |}.

Lemma article_result_parts_witness :
  imageData (article_result {| candidates := Some [two_images] |})
  = Some "second" ∧
  inline_image {| candidates := Some [two_images] |} = Some "first" ∧
  summary (article_result {| candidates := Some [two_images] |}) = "Brief.".
Proof.
  pose proof (article_result_parts {| candidates := Some [two_images] |}
                two_images [] eq_refl) as (H1 & H2 & H3 & _).
  split; [exact H1|]. split; [exact H2|exact H3].
Defined.

End GeminiFacts.
